(** * London Pub Explorer: the filter, aggregation, sort and saved-list core

    A shallow embedding of [final_project.py].  The Streamlit, pydeck and
    plotly calls only render what the functions below compute, so a display
    function is embedded as the value it hands to its renderer.  The pandas
    and numpy operations the program calls are embedded as the library
    computes them, each next to the line that calls it. *)

From Stdlib Require Import Ascii String ZArith QArith_base.
From Stdlib Require OrderedTypeEx.
From stdpp Require Import base list strings sorting.

Local Open Scope string_scope.
Local Open Scope list_scope.
Local Open Scope nat_scope.

(** ** Text

    A Python [str] is embedded as a [string] whose characters are the code
    points below 256. *)

(** [str.isspace] on one character. *)
Definition is_space (c : ascii) : bool :=
  let n := nat_of_ascii c in
  ((9 <=? n) && (n <=? 13)) || ((28 <=? n) && (n <=? 32))
  || (n =? 133) || (n =? 160).

Fixpoint lstrip (s : string) : string :=
  match s with
  | String c s' => if is_space c then lstrip s' else s
  | EmptyString => EmptyString
  end.

Fixpoint rstrip (s : string) : string :=
  match s with
  | String c s' =>
      match rstrip s' with
      | EmptyString => if is_space c then EmptyString else String c EmptyString
      | r => String c r
      end
  | EmptyString => EmptyString
  end.

(** [s.strip()] *)
Definition strip (s : string) : string := rstrip (lstrip s).

(** Lower-case mapping of one code point below 256: A-Z and the accented
    capitals 192-222 (215, the multiplication sign, has no case). *)
Definition lower (c : ascii) : ascii :=
  let n := nat_of_ascii c in
  if ((65 <=? n) && (n <=? 90))
     || ((192 <=? n) && (n <=? 222) && negb (n =? 215))
  then ascii_of_nat (n + 32) else c.

(** ** The [re] module, on the patterns the embedding covers

    [Series.str.contains(pat, case=False)] compiles [pat] with
    [re.IGNORECASE] and keeps a cell when [pat.search(cell)] finds a match.
    Patterns made of ordinary characters and of [.] are embedded below, and
    so is the rejection of a pattern that opens a group it never closes; any
    other pattern goes to [re_beyond]. *)

Inductive atom : Type :=
| Lit (c : ascii)
| AnyChar.

Definition is_special (c : ascii) : bool :=
  existsb (Ascii.eqb c)
    ["."; "^"; "$"; "*"; "+"; "?"; "{"; "}"; "["; "]"; "\"; "|"; "("; ")"]%char.

Definition dot : ascii := "."%char.
Definition newline : ascii := ascii_of_nat 10.

Fixpoint parse_plain (pat : string) : option (list atom) :=
  match pat with
  | EmptyString => Some []
  | String c pat' =>
      if Ascii.eqb c dot then option_map (cons AnyChar) (parse_plain pat')
      else if is_special c then None
      else option_map (cons (Lit c)) (parse_plain pat')
  end.

(** [c in pat] *)
Fixpoint occurs (c : ascii) (pat : string) : bool :=
  match pat with
  | EmptyString => false
  | String c' pat' => Ascii.eqb c c' || occurs c pat'
  end.

(** The number of groups a pattern opens. *)
Fixpoint open_groups (pat : string) : nat :=
  match pat with
  | EmptyString => 0
  | String c pat' =>
      (if Ascii.eqb c "("%char then 1 else 0) + open_groups pat'
  end.

(** The parser of [re] calls itself for every group it is in, two frames a
    group: below this many groups it stays far from the interpreter's limit
    of 1000 frames. *)
Definition MAX_OPEN_GROUPS : nat := 100.

(** A [(] with no [)] anywhere, in a pattern that has neither an escape
    nor a character class to hide it in: [re.compile] raises [re.error]
    (missing ), unterminated subpattern, or the error it meets before the
    end of the pattern).  Left to [re_beyond] are the patterns on which the
    compiler can fail before that with another exception: those with a
    repeat count in braces, which it refuses with [OverflowError] when the
    count is too large, and those that open so many groups that the parser
    runs into [RecursionError]. *)
Definition unclosed_group (pat : string) : bool :=
  occurs "("%char pat && negb (occurs ")"%char pat)
  && negb (occurs "\"%char pat) && negb (occurs "["%char pat)
  && negb (occurs "{"%char pat) && (open_groups pat <=? MAX_OPEN_GROUPS).

Definition atom_match (a : atom) (ch : ascii) : bool :=
  match a with
  | Lit c => Ascii.eqb (lower ch) (lower c)
  | AnyChar => negb (Ascii.eqb ch newline)
  end.

(** A match of the whole pattern starting at the head of [s]. *)
Fixpoint match_here (p : list atom) (s : string) : bool :=
  match p, s with
  | [], _ => true
  | a :: p', String ch s' => atom_match a ch && match_here p' s'
  | _ :: _, EmptyString => false
  end.

(** [pat.search(s) is not None]: a match starting at some position. *)
Fixpoint search (p : list atom) (s : string) : bool :=
  match_here p s ||
  match s with
  | String _ s' => search p s'
  | EmptyString => false
  end.

Inductive exn : Type :=
| re_error      (* re.compile rejects the pattern *)
| TypeError.    (* len() of a cell that is not text *)

Inductive result (A : Type) : Type :=
| Ok (a : A)
| Raise (e : exn).
Arguments Ok {A} a.
Arguments Raise {A} e.

Definition bind {A B} (m : result A) (k : A -> result B) : result B :=
  match m with
  | Ok a => k a
  | Raise e => Raise e
  end.

Notation "'try' x := m 'in' k" := (bind m (fun x => k))
  (at level 10, x name, m at level 100, k at level 200).

(** ** Records and frames *)

(** A cell of a text column: [None] is a cell that holds no text (NaN).
    The text columns are object columns, as [read_excel] makes them when a
    cell of the column holds text. *)
Definition cell : Type := option string.

(** One row of the frame [load_data] returns: its index label and the nine
    columns named there, and the [name_length] column, which only
    [display_sorted_pubs] sets ([None]: the frame has no such column). *)
Record Row : Type := mkRow {
  index : nat;
  fsa_id : Z;
  name : cell;
  address : cell;
  postcode : cell;
  easting : Z;
  northing : Z;
  latitude : Q;
  longitude : Q;
  local_authority : cell;
  name_length : option nat
}.

Definition DataFrame : Type := list Row.

(** [data.empty] on a frame, and the truth value of a Python list: a list
    is false exactly when it has no element. *)
Definition empty {A} (data : list A) : bool :=
  match data with [] => true | _ :: _ => false end.

(** [df[mask]]: the rows whose mask entry is [True], in the frame's order. *)
Fixpoint boolean_index {A} (rows : list A) (mask : list bool) : list A :=
  match rows, mask with
  | r :: rows', b :: mask' =>
      if b then r :: boolean_index rows' mask' else boolean_index rows' mask'
  | _, _ => []
  end.

(** [x in xs] on a list of strings. *)
Definition str_in (x : string) (xs : list string) : bool :=
  existsb (String.eqb x) xs.

(** [series.isin(values)]: a cell without text is in no list of strings. *)
Definition isin (series : list cell) (values : list string) : list bool :=
  map (fun c => match c with Some s => str_in s values | None => false end)
      series.

(** [series == value] *)
Definition series_eq (series : list cell) (value : string) : list bool :=
  map (fun c => match c with Some s => String.eqb s value | None => false end)
      series.

Section Filter.

(** What [re] does with a pattern outside the embedded ones: [None] when
    [re.compile] raises, otherwise [pat.search(s) is not None].  For these
    patterns the exceptions of the compiler are not told apart: [re_error]
    is written for whichever it raises.  Where the class matters, the
    pattern is an embedded one ([unclosed_group]). *)
Variable re_beyond : string -> option (string -> bool).

(** [re.compile(pat, re.IGNORECASE)], then [search]: [None] when the
    pattern is rejected. *)
Definition re_search_ignorecase (pat : string) : option (string -> bool) :=
  match parse_plain pat with
  | Some p => Some (search p)
  | None => if unclosed_group pat then None else re_beyond pat
  end.

(** [series.str.contains(pat, case=False, na=False)] *)
Definition str_contains (series : list cell) (pat : string)
  : result (list bool) :=
  match re_search_ignorecase pat with
  | Some found =>
      Ok (map (fun c => match c with Some s => found s | None => false end)
              series)
  | None => Raise re_error
  end.

(** The frame returned is a frame of its own ([data.copy()], then one new
    frame per mask): its rows are values here, the frame given is not
    touched. *)
Definition apply_filters (data : DataFrame) (authorities : list string)
    (name_query : string) (postal_code : string) : result DataFrame :=
  let filtered_data := data in
  let filtered_data :=
    if negb (empty authorities) && negb (str_in "All" authorities)
    then boolean_index filtered_data
           (isin (map local_authority filtered_data) authorities)
    else filtered_data in
  try filtered_data :=
    (if negb (String.eqb name_query "")
     then
       let trimmed_query := strip name_query in
       try mask := str_contains (map name filtered_data) trimmed_query in
       Ok (boolean_index filtered_data mask)
     else Ok filtered_data) in
  let filtered_data :=
    if negb (String.eqb postal_code "All")
    then boolean_index filtered_data
           (series_eq (map postcode filtered_data) postal_code)
    else filtered_data in
  Ok filtered_data.

End Filter.

(** ** numpy: [argsort] with [kind='quicksort']

    [sort_values] is called without [kind], so pandas sorts with numpy's
    default, [kind='quicksort']: an introsort over an array [tosort] of row
    positions, compared through their keys [v].  Embedded is numpy's
    portable implementation ([aquicksort_] and [aheapsort_] of npysort), the
    one that runs where no vectorised sort is dispatched for the processor.
    Where one is dispatched (numpy 1.25 and later on AVX-512, 2.0 and later
    on AVX2) equal keys come out in another order, on short arrays too: what
    holds whatever routine sorts is stated over [sorts] and the definitions
    of the section [AnyBuild] below.
    A partition [pl..pr] of [tosort] is embedded as the list of its entries,
    and the stack of pending partitions as the recursion over the two sides
    of the pivot.  The loops that C bounds by the keys alone carry a fuel
    here; [partition_loop_spec] and [sift_spec] show it is never used up. *)

Definition SMALL_QUICKSORT : nat := 16.

(** Number of halvings that take [n] to zero, less one. *)
Definition npy_get_msb (n : nat) : nat := Nat.log2 n.

Section Argsort.

(** The keys, by row position. *)
Variable v : list nat.

(** [v[tosort[i]]] *)
Definition key (t : list nat) (i : nat) : nat := v !!! (t !!! i).

(** [INTP_SWAP(tosort[i], tosort[j])] *)
Definition swap (i j : nat) (t : list nat) : list nat :=
  <[j := t !!! i]> (<[i := t !!! j]> t).

(** [while (pj > pl && vp < v[*pk]) { *pj-- = *pk--; }] *)
Fixpoint shift_right (vp : nat) (pj : nat) (t : list nat) : nat * list nat :=
  match pj with
  | 0 => (0, t)
  | S pk =>
      if vp <? key t pk
      then shift_right vp pk (<[S pk := t !!! pk]> t)
      else (pj, t)
  end.

(** One round of the insertion sort: entry [pi] goes down to its place. *)
Definition insert_entry (t : list nat) (pi : nat) : list nat :=
  let vi := t !!! pi in
  let vp := v !!! vi in
  let '(pj, t) := shift_right vp pi t in
  <[pj := vi]> t.

(** [for (pi = pl + 1; pi <= pr; ++pi)] *)
Definition insertion_sort (t : list nat) : list nat :=
  fold_left insert_entry (seq 1 (length t - 1)) t.

(** [do { ++pi; } while (v[*pi] < vp);] *)
Fixpoint scan_up (vp : nat) (fuel : nat) (pi : nat) (t : list nat) : nat :=
  match fuel with
  | 0 => S pi
  | S fuel' =>
      if key t (S pi) <? vp then scan_up vp fuel' (S pi) t else S pi
  end.

(** [do { --pj; } while (vp < v[*pj]);] *)
Fixpoint scan_down (vp : nat) (pj : nat) (t : list nat) : nat :=
  match pj with
  | 0 => 0
  | S pj' => if vp <? key t pj' then scan_down vp pj' t else pj'
  end.

(** The [for (;;)] loop of the partition. *)
Fixpoint partition_loop (vp : nat) (fuel : nat) (pi pj : nat) (t : list nat)
  : nat * list nat :=
  match fuel with
  | 0 => (pi, t)
  | S fuel' =>
      let pi := scan_up vp (length t) pi t in
      let pj := scan_down vp pj t in
      if pj <=? pi then (pi, t)
      else partition_loop vp fuel' pi pj (swap pi pj t)
  end.

(** Median of three, then the partition around it; returns the place of
    the pivot and the partitioned entries. *)
Definition partition (t : list nat) : nat * list nat :=
  let pl := 0 in
  let pr := length t - 1 in
  let pm := pl + (pr - pl) / 2 in
  let t := if key t pm <? key t pl then swap pm pl t else t in
  let t := if key t pr <? key t pm then swap pr pm t else t in
  let t := if key t pm <? key t pl then swap pm pl t else t in
  let vp := key t pm in
  let pi := pl in
  let pj := pr - 1 in
  let t := swap pm pj t in
  let '(pi, t) := partition_loop vp (length t) pi pj t in
  let pk := pr - 1 in
  (pi, swap pi pk t).

(** The inner loop of the heapsort, with [a = tosort - 1] indexed from 1:
    the hole at [i] goes down while a child has a larger key than [tmp]. *)
Fixpoint sift (fuel : nat) (n tmp : nat) (i j : nat) (t : list nat)
  : list nat :=
  match fuel with
  | 0 => <[i - 1 := tmp]> t
  | S fuel' =>
      if j <=? n then
        let j := if (j <? n) && (key t (j - 1) <? key t j) then j + 1 else j in
        if v !!! tmp <? key t (j - 1)
        then sift fuel' n tmp j (j + j) (<[i - 1 := t !!! (j - 1)]> t)
        else <[i - 1 := tmp]> t
      else <[i - 1 := tmp]> t
  end.

(** [for (l = n >> 1; l > 0; --l)] *)
Fixpoint heapify (n : nat) (l : nat) (t : list nat) : list nat :=
  match l with
  | 0 => t
  | S l' => heapify n l' (sift n n (t !!! (l - 1)) l (l + l) t)
  end.

(** [for (; n > 1;)] *)
Fixpoint extract (n : nat) (t : list nat) : list nat :=
  match n with
  | S (S _ as n') =>
      let tmp := t !!! (n - 1) in
      let t := <[n - 1 := t !!! 0]> t in
      extract n' (sift n' n' tmp 1 2 t)
  | _ => t
  end.

(** The heapsort a partition falls back to once the depth limit is used
    up. *)
Definition aheapsort (t : list nat) : list nat :=
  let n := length t in
  extract n (heapify n (n / 2) t).

(** The [while (1)] loop from its inner [while]: partitions as long as
    more than [SMALL_QUICKSORT + 1] entries are left, then sorts the rest
    by insertion.  The side pushed on the stack is the larger one; when it
    is popped the depth limit is checked. *)
Fixpoint aquicksort_loop (fuel : nat) (cdepth : Z) (t : list nat)
  : list nat :=
  match fuel with
  | 0 => t
  | S fuel' =>
      if SMALL_QUICKSORT <? length t - 1 then
        let '(pi, t) := partition t in
        let pr := length t - 1 in
        let cdepth := (cdepth - 1)%Z in
        let popped (s : list nat) : list nat :=
          if (cdepth <? 0)%Z then aheapsort s
          else aquicksort_loop fuel' cdepth s in
        if pi <? pr - pi
        then aquicksort_loop fuel' cdepth (take pi t)
               ++ t !!! pi :: popped (drop (S pi) t)
        else popped (take pi t)
               ++ t !!! pi :: aquicksort_loop fuel' cdepth (drop (S pi) t)
      else insertion_sort t
  end.

Definition aquicksort (tosort : list nat) : list nat :=
  let num := length tosort in
  let cdepth := Z.of_nat (npy_get_msb num * 2) in
  aquicksort_loop num cdepth tosort.

End Argsort.

(** [a.argsort(kind='quicksort')], where the portable routine runs. *)
Definition argsort (a : list nat) : list nat :=
  aquicksort a (seq 0 (length a)).

(** ** pandas: positional selection and sorting *)

(** [obj.iloc[indexer]] (also [a[indexer]] on an array): the entries at the
    given positions, in the indexer's order. *)
Definition iloc {A} (obj : list A) (indexer : list nat) : list A :=
  omap (fun i => obj !! i) indexer.

(** [nargsort(items, kind='quicksort', ascending)] on keys without NaN: a
    descending sort reverses the keys, sorts them ascending and reverses the
    outcome. *)
Definition nargsort (items : list nat) (ascending : bool) : list nat :=
  let idx := seq 0 (length items) in
  if ascending then iloc idx (argsort items)
  else reverse (iloc (reverse idx) (argsort (reverse items))).

(** [obj.sort_values(by=..., ascending=...)] with the default [kind]. *)
Definition sort_values {A} (by_ : A -> nat) (ascending : bool) (obj : list A)
  : list A :=
  iloc obj (nargsort (map by_ obj) ascending).

(** A stable sort, by insertion from the right.  numpy's stable kinds all
    compute this one order. *)
Fixpoint stable_insert {A} (f : A -> Z) (x : A) (l : list A) : list A :=
  match l with
  | [] => [x]
  | y :: l' => if (f x <=? f y)%Z then x :: l else y :: stable_insert f x l'
  end.

Definition stable_sort {A} (f : A -> Z) (l : list A) : list A :=
  foldr (stable_insert f) [] l.

(** [a.argsort(kind='mergesort')] *)
Definition argsort_stable (a : list Z) : list nat :=
  map fst (stable_sort snd (zip (seq 0 (length a)) a)).

(** [algos.kth_smallest(arr, k)]: the value at place [k] of the sorted
    array. *)
Definition kth_smallest (arr : list Z) (k : nat) : Z :=
  stable_sort id arr !!! k.

(** [np.nonzero(mask)]: the positions that hold [True]. *)
Definition nonzero (mask : list bool) : list nat :=
  boolean_index (seq 0 (length mask)) mask.

(** ** pandas: counting and ranking *)

Definition counts : Type := list (string * nat).

(** The hash table behind [value_counts]: one entry per key, in the order of
    first appearance. *)
Fixpoint bump (k : string) (table : counts) : counts :=
  match table with
  | [] => [(k, 1)]
  | (k', c) :: table' =>
      if String.eqb k k' then (k', S c) :: table'
      else (k', c) :: bump k table'
  end.

(** [htable.value_count(values, dropna=True)] *)
Definition value_count (values : list cell) : counts :=
  fold_left (fun table c =>
               match c with Some k => bump k table | None => table end)
            values [].

(** [series.value_counts()]: defaults [sort=True, ascending=False,
    dropna=True]. *)
Definition value_counts (series : list cell) : counts :=
  sort_values snd false (value_count series).

(** [series.nlargest(n)] with the default [keep='first']: all of the
    series, sorted, when it has at most [n] entries; otherwise the negated
    counts ([-arr - 1] on integers) not above the [n]-th smallest of them,
    in stable order. *)
Definition nlargest (n : nat) (obj : counts) : counts :=
  if n =? 0 then []
  else if length obj <=? n then take n (sort_values snd false obj)
  else
    let arr := map (fun kc => (- Z.of_nat (snd kc) - 1)%Z) obj in
    let nbase := n in
    let narr := length arr in
    let n := n `min` narr in
    let kth_val := kth_smallest arr (n - 1) in
    let ns := nonzero (map (fun x => (x <=? kth_val)%Z) arr) in
    let inds := iloc ns (argsort_stable (iloc arr ns)) in
    let inds := take n inds in
    take nbase (iloc obj inds).

(** ** What the page shows *)

(** A row of the table [display_sorted_pubs] shows: the index label and the
    four columns selected there. *)
Record Shown : Type := mkShown {
  s_index : nat;
  s_name : cell;
  s_address : cell;
  s_postcode : cell;
  s_local_authority : cell
}.

Definition shown (r : Row) : Shown :=
  mkShown (index r) (name r) (address r) (postcode r) (local_authority r).

Inductive rendered : Type :=
| st_write (text : string)
| st_plotly_chart (title : string) (chart_data : counts)
| st_dataframe (table : list Shown)
| st_success (pub : cell)
| st_subheader (text : string)
| st_write_value (pub : cell).

(** ** The display functions *)

Definition display_bar_chart (data : DataFrame) : rendered :=
  if negb (empty data) then
    let chart_data := value_counts (map local_authority data) in
    st_plotly_chart "Number of Pubs by Local Authority" chart_data
  else st_write "No chart data available.".

Definition display_top_cities (data : DataFrame) : rendered :=
  if negb (empty data) then
    let chart_data := nlargest 10 (value_counts (map local_authority data)) in
    st_plotly_chart "Top 10 Cities by Number of Pubs" chart_data
  else st_write "No chart data available.".

(** [len(x)] on a cell: a cell without text has no length. *)
Definition len (x : cell) : result nat :=
  match x with
  | Some s => Ok (String.length s)
  | None => Raise TypeError
  end.

(** [series.apply(func)]: the first failing call ends it. *)
Fixpoint apply {A B} (func : A -> result B) (series : list A)
  : result (list B) :=
  match series with
  | [] => Ok []
  | x :: series' =>
      try y := func x in
      try ys := apply func series' in
      Ok (y :: ys)
  end.

Definition set_name_length (r : Row) (n : nat) : Row :=
  mkRow (index r) (fsa_id r) (name r) (address r) (postcode r) (easting r)
        (northing r) (latitude r) (longitude r) (local_authority r) (Some n).

(** [data['name_length'] = values] *)
Definition assign_name_length (data : DataFrame) (values : list nat)
  : DataFrame :=
  zip_with set_name_length data values.

(** The [name_length] column as sort key. *)
Definition by_name_length (r : Row) : nat := default 0 (name_length r).

(** The frame passed in is the caller's object: the function returns it as
    it is left, next to what is shown or raised. *)
Definition display_sorted_pubs (data : DataFrame)
  : DataFrame * result rendered :=
  if negb (empty data) then
    match apply len (map name data) with
    | Ok lengths =>
        let data := assign_name_length data lengths in
        let sorted_data := sort_values by_name_length true data in
        (data, Ok (st_dataframe (map shown sorted_data)))
    | Raise e => (data, Raise e)
    end
  else (data, Ok (st_write "No data available to display.")).

(** ** The Saved Pubs page *)

(** [st.session_state]: [saved_pubs] is unset until the page first runs. *)
Record SessionState : Type := mkSession {
  saved_pubs : option (list cell)
}.

(** Lines 163-164, with what the widgets returned: whether the button was
    pressed and the option selected, which is "None" or the name cell of a
    row of the filtered frame. *)
Definition save (saved : list cell) (button : bool) (pub_name : cell)
  : list cell :=
  if button && negb (bool_decide (pub_name = Some "None"))
  then (saved ++ [pub_name])%list
  else saved.

(** One run of the page. *)
Definition saved_pubs_page (session_state : SessionState)
    (pub_name : cell) (button : bool) : SessionState * list rendered :=
  let saved :=
    match saved_pubs session_state with
    | None => []
    | Some saved => saved
    end in
  let saved' := save saved button pub_name in
  let success :=
    if button && negb (bool_decide (pub_name = Some "None"))
    then [st_success pub_name] else [] in
  let listing :=
    if negb (empty saved')
    then st_subheader "Saved Pubs" :: map st_write_value saved'
    else [] in
  (mkSession (Some saved'), (success ++ listing)%list).

(** ** The properties in the words of the specification *)

Fixpoint lower_str (s : string) : string :=
  match s with
  | EmptyString => EmptyString
  | String c s' => String (lower c) (lower_str s')
  end.

Fixpoint starts_with (q s : string) : bool :=
  match q, s with
  | EmptyString, _ => true
  | String a q', String b s' => Ascii.eqb a b && starts_with q' s'
  | String _ _, EmptyString => false
  end.

Fixpoint has_substring (q s : string) : bool :=
  starts_with q s ||
  match s with
  | String _ s' => has_substring q s'
  | EmptyString => false
  end.

(** "The record's name contains the query as a substring,
    case-insensitively." *)
Definition contains_ignoring_case (query text : string) : bool :=
  has_substring (lower_str query) (lower_str text).

(** The name filter as the specification words it: a record is kept when it
    has a name and the name contains the query. *)
Definition name_matches (query : string) (r : Row) : bool :=
  match name r with
  | Some s => contains_ignoring_case query s
  | None => false
  end.

(** A query without any character that is special in a pattern. *)
Fixpoint plain_query (query : string) : bool :=
  match query with
  | EmptyString => true
  | String c query' => negb (is_special c) && plain_query query'
  end.

(** The length of the name a shown row carries. *)
Definition shown_length (s : Shown) : nat :=
  match s_name s with
  | Some x => String.length x
  | None => 0
  end.

(** "Records with equal name length retain their relative input order":
    for every length, the records of that length come in the same order in
    both tables. *)
Definition keeps_order_of_equal_lengths (input output : list Shown) : Prop :=
  forall k : nat,
    filter (fun s => shown_length s = k) output
    = filter (fun s => shown_length s = k) input.

(** Ascending, and descending, order of a list under a key. *)
Definition ascending {A} (f : A -> nat) (l : list A) : Prop :=
  StronglySorted (fun a b => f a <= f b) l.

Definition descending {A} (f : A -> nat) (l : list A) : Prop :=
  StronglySorted (fun a b => f b <= f a) l.

(** Ascending order under an integer key. *)
Definition ascendingZ {A} (f : A -> Z) (l : list A) : Prop :=
  StronglySorted (fun a b => (f a <= f b)%Z) l.

(** The heap order on the entries [lo..n] of [a = tosort - 1]: an entry's
    key is at most the key of its parent [c / 2], for parents from [lo]
    on. *)
Definition heap_from (v t : list nat) (lo n : nat) : Prop :=
  forall c, lo <= c / 2 -> c <= n ->
            key v t (c - 1) <= key v t (c / 2 - 1).

(** The entries with a given key, in the list's order. *)
Definition with_key {A} (f : A -> nat) (k : nat) (l : list A) : list A :=
  filter (fun a => f a = k) l.

(** The rows that have a region. *)
Definition with_region (data : DataFrame) : list string :=
  omap local_authority data.

(** "The number of distinct regions in R." *)
Definition distinct_region_count (data : DataFrame) : nat :=
  length (remove_dups (with_region data)).

Definition sum_counts (c : counts) : nat := sum_list (map snd c).

(** The columns [load_data] names, without the scratch column. *)
Definition loaded (r : Row)
  : nat * Z * cell * cell * cell * Z * Z * Q * Q * cell :=
  (index r, fsa_id r, name r, address r, postcode r, easting r, northing r,
   latitude r, longitude r, local_authority r).

(** The saved list after a run of the page per selected name, the button
    pressed each time. *)
Definition save_all (session_state : SessionState) (names : list cell)
  : SessionState :=
  fold_left (fun st pub_name => fst (saved_pubs_page st pub_name true))
            names session_state.

(** The saved names a session holds; none before the page first ran. *)
Definition saved_list (session_state : SessionState) : list cell :=
  match saved_pubs session_state with
  | Some saved => saved
  | None => []
  end.

(** ** Whatever routine sorts

    Which routine [argsort(kind='quicksort')] runs is settled where numpy
    is built and loaded: the portable quicksort embedded as [argsort]
    above, or a vectorised sort where the processor has one.  Each of them
    returns the positions of the array, each once, in ascending order of
    their keys; the order among equal keys is the routine's own.  The
    definitions of this section are the sorting calls of pandas over the
    routine given; with [argsort] they are the definitions above. *)

(** What every routine does: numpy's contract for [argsort]. *)
Definition sorts (routine : list nat -> list nat) : Prop :=
  forall a : list nat,
    routine a ≡ₚ seq 0 (length a)
    /\ ascending (fun i => a !!! i) (routine a).


Section AnyBuild.

Variable routine : list nat -> list nat.

(** [nargsort(items, kind='quicksort', ascending)] *)
Definition nargsort_with (items : list nat) (ascending : bool) : list nat :=
  let idx := seq 0 (length items) in
  if ascending then iloc idx (routine items)
  else reverse (iloc (reverse idx) (routine (reverse items))).

(** [obj.sort_values(by=..., ascending=...)] with the default [kind]. *)
Definition sort_values_with {A} (by_ : A -> nat) (ascending : bool)
    (obj : list A) : list A :=
  iloc obj (nargsort_with (map by_ obj) ascending).

(** [series.value_counts()] *)
Definition value_counts_with (series : list cell) : counts :=
  sort_values_with snd false (value_count series).

(** [series.nlargest(n)]: the routine sorts when the series has at most
    [n] entries only. *)
Definition nlargest_with (n : nat) (obj : counts) : counts :=
  if n =? 0 then []
  else if length obj <=? n then take n (sort_values_with snd false obj)
  else
    let arr := map (fun kc => (- Z.of_nat (snd kc) - 1)%Z) obj in
    let nbase := n in
    let narr := length arr in
    let n := n `min` narr in
    let kth_val := kth_smallest arr (n - 1) in
    let ns := nonzero (map (fun x => (x <=? kth_val)%Z) arr) in
    let inds := iloc ns (argsort_stable (iloc arr ns)) in
    let inds := take n inds in
    take nbase (iloc obj inds).

(** [display_sorted_pubs(data)] *)
Definition display_sorted_pubs_with (data : DataFrame)
  : DataFrame * result rendered :=
  if negb (empty data) then
    match apply len (map name data) with
    | Ok lengths =>
        let data := assign_name_length data lengths in
        let sorted_data := sort_values_with by_name_length true data in
        (data, Ok (st_dataframe (map shown sorted_data)))
    | Raise e => (data, Raise e)
    end
  else (data, Ok (st_write "No data available to display.")).

End AnyBuild.

(** ** Sample frames *)

Definition pub (i : nat) (n region pc : cell) : Row :=
  mkRow i 0 n (Some "1 High Street") pc 0 0 (515 # 10) (0 # 1) region None.

(** The three records of the specification's scenario. *)
Definition scenario : DataFrame :=
  [ pub 0 (Some "Red Lion") (Some "Camden") (Some "N1");
    pub 1 (Some "Ox") (Some "Camden") (Some "N1");
    pub 2 (Some "The Crown") (Some "Soho") (Some "W1") ].

(** The scenario with one more pub, whose name cell is empty. *)
Definition scenario_nameless : DataFrame :=
  (scenario ++ [pub 3 None (Some "Soho") (Some "W1")])%list.

(** Pubs without a region. *)
Definition no_region : DataFrame :=
  [ pub 0 (Some "Red Lion") None (Some "N1");
    pub 1 (Some "Ox") None (Some "N1") ].

(** Eighteen pubs whose names are all five characters long. *)
Definition eighteen : DataFrame :=
  imap (fun i n => pub i (Some n) (Some "Camden") (Some "N1"))
    [ "Pub 0"; "Pub 1"; "Pub 2"; "Pub 3"; "Pub 4"; "Pub 5"; "Pub 6"; "Pub 7";
      "Pub 8"; "Pub 9"; "Pub A"; "Pub B"; "Pub C"; "Pub D"; "Pub E"; "Pub F";
      "Pub G"; "Pub H" ].

(** Three pubs, two of them with names of eight characters. *)
Definition two_of_eight : DataFrame :=
  [ pub 0 (Some "Red Lion") (Some "Camden") (Some "N1");
    pub 1 (Some "Ox") (Some "Camden") (Some "N1");
    pub 2 (Some "The Swan") (Some "Soho") (Some "W1") ].


(** ** Loading the sheet *)

(** A cell of a coordinate column as [read_excel] hands it over: a number,
    a text, or nothing. *)
Inductive raw_cell : Type :=
| Number (q : Q)
| Text (s : string)
| Blank.

(** A row of the sheet, under the nine names [load_data] gives the
    columns. *)
Record SheetRow : Type := mkSheetRow {
  r_fsa_id : Z;
  r_name : cell;
  r_address : cell;
  r_postcode : cell;
  r_easting : Z;
  r_northing : Z;
  r_latitude : raw_cell;
  r_longitude : raw_cell;
  r_local_authority : cell
}.

Section Load.

(** The number a text cell stands for, if it stands for one. *)
Variable parse_number : string -> option Q.

(** [pd.to_numeric(x, errors='coerce')] on one cell: [None] is NaN. *)
Definition to_numeric (x : raw_cell) : option Q :=
  match x with
  | Number q => Some q
  | Text s => parse_number s
  | Blank => None
  end.

(** Lines 28-30 on the row at position [i] of the sheet: the row stays,
    under the label [i], when both coordinates are numbers. *)
Definition load_row (i : nat) (r : SheetRow) : option Row :=
  match to_numeric (r_latitude r), to_numeric (r_longitude r) with
  | Some la, Some lo =>
      Some (mkRow i (r_fsa_id r) (r_name r) (r_address r) (r_postcode r)
              (r_easting r) (r_northing r) la lo (r_local_authority r) None)
  | _, _ => None
  end.

(** [load_data()], of the sheet the file holds: [read_excel] labels the
    rows 0, 1, ... and [dropna] keeps the labels of the rows it keeps. *)
Definition load_data (sheet : list SheetRow) : DataFrame :=
  omap (fun ir => load_row (fst ir) (snd ir))
       (zip (seq 0 (length sheet)) sheet).

End Load.

(** ** The options of the sidebar *)

(** [series.unique()]: the values in the order of their first appearance,
    NaN among them at most once. *)
Fixpoint unique (values : list cell) : list cell :=
  match values with
  | [] => []
  | x :: values' => x :: filter (fun y => y <> x) (unique values')
  end.

(** [series.dropna()] *)
Definition dropna (values : list cell) : list cell :=
  filter (fun x => x <> None) values.

(** Python's [<] on [str]: by code points, a proper prefix first. *)
Definition str_lt (a b : string) : bool := String.ltb a b.

Fixpoint sorted_insert (x : string) (l : list string) : list string :=
  match l with
  | [] => [x]
  | y :: l' => if str_lt y x then y :: sorted_insert x l' else x :: l
  end.

(** [sorted(values)]: text among text is put in order and NaN among NaN
    stays as it is, since [nan < nan] is false; text and NaN do not compare,
    and any two values of a list are compared or stand in one chain of
    comparisons. *)
Definition sorted (values : list cell) : result (list cell) :=
  match values with
  | [] | [_] => Ok values
  | _ =>
      if forallb (fun x => bool_decide (x <> None)) values
      then Ok (map Some (foldr sorted_insert [] (omap id values)))
      else if forallb (fun x => bool_decide (x = None)) values
           then Ok values
           else Raise TypeError
  end.

(** Line 137. *)
Definition authority_options (data : DataFrame) : result (list cell) :=
  try regions := sorted (unique (map local_authority data)) in
  Ok (Some "All" :: regions).

(** Line 139. *)
Definition postal_code_options (data : DataFrame) : result (list cell) :=
  try codes := sorted (unique (dropna (map postcode data))) in
  Ok (Some "All" :: codes).

(** ** The page *)

Inductive Page : Type :=
| Home
| SavedPubs.

(** What a run puts on the screen, in the order of the calls. *)
Inductive element : Type :=
| sidebar_title (text : string)
| sidebar_radio (label : string) (options : list string)
| sidebar_text_input (label : string)
| sidebar_multiselect (label : string) (options : list cell)
| sidebar_selectbox (label : string) (options : list cell)
| st_title (text : string)
| st_image (file : string) (width : nat)
| st_markdown (text : string)
| st_pydeck_chart (lat lon : Q) (layer_data : DataFrame)
| st_selectbox (label : string) (options : list cell)
| st_button (label : string)
| showing (r : rendered).

(** A run of the script: the session state it leaves, what it showed, and
    the exception that ended it, if one did. *)
Record Run : Type := mkRun {
  state : SessionState;
  elements : list element;
  raised : option exn
}.

Definition welcome : string :=
"
        ### Welcome to the London Pub Explorer!
        Discover and explore pubs across various regions of London. Filter by location, name, or postal code and find your next destination!
        ".

Section Main.

Variable parse_number : string -> option Q.
Variable re_beyond : string -> option (string -> bool).

(** [series.mean()] on a column of numbers. *)
Variable mean : list Q -> Q.

(** The map is centred on the mean of the coordinates and has one layer,
    over all the rows given. *)
Definition create_pydeck_map (data : DataFrame) : element :=
  if negb (empty data) then
    st_pydeck_chart (mean (map latitude data)) (mean (map longitude data))
      data
  else showing (st_write "No data available to display on the map.").

Definition home (data filtered_data : DataFrame) : list element * option exn :=
  let shown_first :=
    [ st_title "Explore Pubs across London";
      st_image "london.jpg" 700;
      st_markdown welcome;
      create_pydeck_map filtered_data;
      showing (display_bar_chart filtered_data);
      showing (display_top_cities data) ] in
  match snd (display_sorted_pubs filtered_data) with
  | Ok table => (shown_first ++ [showing table], None)
  | Raise e => (shown_first, Some e)
  end.

Definition saved (session_state : SessionState) (filtered_data : DataFrame)
    (pub_name : cell) (button : bool) : SessionState * list element :=
  let '(session_state', shown_last) :=
    saved_pubs_page session_state pub_name button in
  (session_state',
   [ st_title "Your Saved Pubs";
     st_selectbox "Select a Pub to Save"
       (Some "None" :: map name filtered_data);
     st_button "Save Pub" ] ++ map showing shown_last).

(** [main()], of the sheet in the file, the session state, and what the
    widgets return in this run: the page, the query, the authorities and
    the postal code selected, and on the Saved Pubs page the pub selected
    and whether the button was pressed. *)
Definition main (sheet : list SheetRow) (session_state : SessionState)
    (page : Page) (name_query : string) (authorities : list string)
    (postal_code : string) (pub_name : cell) (button : bool) : Run :=
  let shown0 :=
    [ sidebar_title "London Pub Explorer";
      sidebar_radio "Navigation" ["Home"; "Saved Pubs"] ] in
  let data := load_data parse_number sheet in
  match authority_options data with
  | Raise e => mkRun session_state shown0 (Some e)
  | Ok authority_options =>
      let shown1 := shown0 ++ [sidebar_text_input "Search by Pub Name"] in
      match postal_code_options data with
      | Raise e => mkRun session_state shown1 (Some e)
      | Ok postal_code_options =>
          let shown2 :=
            shown1
            ++ [ sidebar_multiselect "Filter by Local Authority"
                   authority_options;
                 sidebar_selectbox "Filter by Postal Code"
                   postal_code_options ] in
          match apply_filters re_beyond data authorities name_query
                  postal_code with
          | Raise e => mkRun session_state shown2 (Some e)
          | Ok filtered_data =>
              match page with
              | Home =>
                  let '(shown3, e) := home data filtered_data in
                  mkRun session_state (shown2 ++ shown3) e
              | SavedPubs =>
                  let '(session_state', shown3) :=
                    saved session_state filtered_data pub_name button in
                  mkRun session_state' (shown2 ++ shown3) None
              end
          end
      end
  end.

End Main.

(** ** More properties in plain words *)

(** How often a region occurs in a column. *)
Definition occurrences (k : string) (values : list cell) : nat :=
  length (filter (fun x => x = Some k) values).

(** The row passes the three criteria of [apply_filters], given the test
    the query stands for. *)
Definition passes (authorities : list string) (name_query : string)
    (found : string -> bool) (postal_code : string) (r : Row) : bool :=
  (empty authorities || str_in "All" authorities
   || match local_authority r with
      | Some a => str_in a authorities
      | None => false
      end)
  && (String.eqb name_query ""
      || match name r with Some s => found s | None => false end)
  && (String.eqb postal_code "All"
      || match postcode r with
         | Some p => String.eqb p postal_code
         | None => false
         end).

(** The session after a series of runs of the Saved Pubs page, each with
    the option selected and whether the button was pressed. *)
Definition runs (session_state : SessionState)
    (inputs : list (cell * bool)) : SessionState :=
  fold_left (fun st pb => fst (saved_pubs_page st (fst pb) (snd pb)))
            inputs session_state.

(** The run appends what was selected: the button was pressed and the
    option was not "None". *)
Definition saves (input : cell * bool) : bool :=
  snd input && negb (bool_decide (fst input = Some "None")).

(** The count a table holds for a key, 0 when it has no entry for it. *)
Fixpoint count_of (k : string) (table : counts) : nat :=
  match table with
  | [] => 0
  | (k', c) :: table' => if String.eqb k k' then c else count_of k table'
  end.

(** The row of the sheet has a number in both coordinate columns. *)
Definition has_coordinates (parse_number : string -> option Q)
    (r : SheetRow) : bool :=
  match to_numeric parse_number (r_latitude r),
        to_numeric parse_number (r_longitude r) with
  | Some _, Some _ => true
  | _, _ => false
  end.

(** An atom of a pattern, in lower case. *)
Definition lower_atom (a : atom) : atom :=
  match a with
  | Lit c => Lit (lower c)
  | AnyChar => AnyChar
  end.

(** Text in strictly ascending order. *)
Definition strictly_ascending (l : list string) : Prop :=
  StronglySorted (fun a b => str_lt a b = true) l.

(** A pattern compiler that takes none of the patterns left to it. *)
Definition rejects_the_rest : string -> option (string -> bool) :=
  fun _ => None.

(** A sheet of four rows: the second has a text where its latitude should
    be, the fourth has no longitude. *)
Definition sheet4 : list SheetRow :=
  [ mkSheetRow 1 (Some "Red Lion") (Some "1 High Street") (Some "N1") 0 0
      (Number (515 # 10)) (Number (0 # 1)) (Some "Camden");
    mkSheetRow 2 (Some "Ox") (Some "2 High Street") (Some "N1") 0 0
      (Text "\N") (Number (0 # 1)) (Some "Camden");
    mkSheetRow 3 (Some "The Crown") (Some "3 High Street") (Some "W1") 0 0
      (Number (515 # 10)) (Number (1 # 10)) (Some "Soho");
    mkSheetRow 4 (Some "Swan") (Some "4 High Street") (Some "W1") 0 0
      (Number (515 # 10)) Blank (Some "Soho") ].

(** Arithmetic with halves: [c / 2] and [c mod 2] are named and handed to
    [lia] with their defining equation. *)
Ltac halves :=
  repeat match goal with
  | |- context [?c / 2] =>
      pose proof (Nat.div_mod_eq c 2);
      pose proof (Nat.mod_upper_bound c 2 ltac:(lia));
      generalize dependent (c mod 2); generalize dependent (c / 2); intros
  | H : context [?c / 2] |- _ =>
      pose proof (Nat.div_mod_eq c 2);
      pose proof (Nat.mod_upper_bound c 2 ltac:(lia));
      generalize dependent (c mod 2); generalize dependent (c / 2); intros
  end; lia.

(** * Theorems *)

(** ** Filtering *)

Lemma boolean_index_sublist {A} (rows : list A) (mask : list bool) :
  boolean_index rows mask `sublist_of` rows.
Proof.
  revert mask. induction rows as [|r rows IH]; intros [|[] mask]; simpl;
    try apply sublist_nil_l.
  - by apply sublist_skip.
  - by apply sublist_cons.
Qed.

Lemma boolean_index_map {A} (p : A -> bool) (rows : list A) :
  boolean_index rows (map p rows) = List.filter p rows.
Proof.
  induction rows as [|r rows IH]; simpl; [done|]. rewrite IH. by destruct (p r).
Qed.

Lemma boolean_index_all {A} (rows : list A) (mask : list bool) :
  length mask = length rows -> Forall (fun b => b = true) mask ->
  boolean_index rows mask = rows.
Proof.
  revert mask. induction rows as [|r rows IH]; intros [|b mask]; simpl;
    try done.
  intros Hlen Hall. inversion Hall; subst. f_equal. apply IH; [lia|done].
Qed.

Section FilterFacts.

Variable re_beyond : string -> option (string -> bool).

Lemma str_contains_raises series pat e :
  str_contains re_beyond series pat = Raise e ->
  e = re_error /\ re_search_ignorecase re_beyond pat = None.
Proof.
  unfold str_contains. destruct (re_search_ignorecase re_beyond pat);
    [discriminate|]. by intros [= <-].
Qed.

(** C5. Whatever the criteria, the frame [apply_filters] returns is a
    sub-sequence of the frame it was given: the rows it keeps are rows of
    the input, unchanged, none twice, and in the input's order.  The one
    way it returns no frame is [re.error], raised when the query is not
    empty and [re] rejects the trimmed query as a pattern. *)
Theorem apply_filters_sublist (data : DataFrame) (authorities : list string)
    (name_query postal_code : string) :
  match apply_filters re_beyond data authorities name_query postal_code with
  | Ok filtered_data => filtered_data `sublist_of` data
  | Raise e =>
      e = re_error /\ name_query <> ""
      /\ re_search_ignorecase re_beyond (strip name_query) = None
  end.
Proof.
  unfold apply_filters.
  remember (if negb (empty authorities) && negb (str_in "All" authorities)
            then boolean_index data
                   (isin (map local_authority data) authorities)
            else data) as d1 eqn:Hd1.
  assert (H1 : d1 `sublist_of` data).
  { subst d1. destruct (_ && _); [apply boolean_index_sublist|done]. }
  clear Hd1.
  destruct (String.eqb_spec name_query "") as [->|Hq]; simpl.
  - destruct (negb _); [|done].
    etrans; [apply boolean_index_sublist|done].
  - destruct (str_contains re_beyond (map name d1) (strip name_query))
      as [mask|e] eqn:Hc; simpl.
    + assert (H2 : boolean_index d1 mask `sublist_of` data)
        by (etrans; [apply boolean_index_sublist|done]).
      destruct (negb _); [|done].
      etrans; [apply boolean_index_sublist|done].
    + apply str_contains_raises in Hc as [-> Hc]. done.
Qed.

Lemma parse_plain_query (q : string) :
  plain_query q = true ->
  exists p, parse_plain q = Some p
            /\ forall s, match_here p s = starts_with (lower_str q) (lower_str s).
Proof.
  induction q as [|c q IH]; simpl.
  - intros _. exists []. split; [done|]. by intros [].
  - intros [Hc Hq]%andb_prop. apply negb_true_iff in Hc.
    destruct (IH Hq) as (p & -> & Hp).
    assert (Ascii.eqb c dot = false) as ->.
    { destruct (Ascii.eqb_spec c dot) as [->|]; [discriminate|done]. }
    rewrite Hc. simpl. eexists. split; [done|].
    intros [|b s]; simpl; [done|]. rewrite Hp.
    by rewrite (Ascii.eqb_sym (lower b)).
Qed.

Lemma search_plain_query (q : string) :
  plain_query q = true ->
  exists found, re_search_ignorecase re_beyond q = Some found
                /\ forall s, found s = contains_ignoring_case q s.
Proof.
  intros (p & Hp & Hm)%parse_plain_query.
  unfold re_search_ignorecase. rewrite Hp. eexists. split; [done|].
  unfold contains_ignoring_case.
  induction s as [|b s IH]; simpl; rewrite Hm; simpl; [done|].
  by rewrite IH.
Qed.

(** Where the name filter does what the specification says: on a query
    that, trimmed, has no character special in a pattern. *)
Lemma apply_filters_plain_query (data : DataFrame) (name_query : string) :
  name_query <> "" -> plain_query (strip name_query) = true ->
  apply_filters re_beyond data [] name_query "All"
  = Ok (List.filter (name_matches (strip name_query)) data).
Proof.
  intros Hq (found & Hf & Hs)%search_plain_query.
  unfold apply_filters. simpl.
  destruct (String.eqb_spec name_query "") as [->|_]; [done|]. simpl.
  unfold str_contains. rewrite Hf. simpl. f_equal.
  rewrite <- boolean_index_map, map_map. f_equal.
  apply map_ext. intros r. unfold name_matches.
  destruct (name r); [apply Hs|done].
Qed.

(** With no region chosen (or "All" among them), an empty query and the
    "All" postcode, the frame comes back as it was given. *)
Lemma apply_filters_no_criteria (data : DataFrame)
    (authorities : list string) :
  authorities = [] \/ str_in "All" authorities = true ->
  apply_filters re_beyond data authorities "" "All" = Ok data.
Proof.
  intros [->|Hall]; unfold apply_filters; simpl; [done|].
  rewrite Hall. by rewrite andb_false_r.
Qed.

(** A query that is blank but not empty keeps the rows that have a name:
    all of them when no name is missing. *)
Lemma apply_filters_blank_query (data : DataFrame) (name_query : string) :
  name_query <> "" -> strip name_query = "" ->
  Forall (fun r => name r <> None) data ->
  apply_filters re_beyond data [] name_query "All" = Ok data.
Proof.
  intros Hq Hblank Hnames. unfold apply_filters. simpl.
  destruct (String.eqb_spec name_query "") as [->|_]; [done|]. simpl.
  rewrite Hblank. unfold str_contains. simpl. f_equal.
  apply boolean_index_all; [by rewrite !length_map|].
  apply Forall_fmap, Forall_fmap. eapply Forall_impl; [exact Hnames|].
  intros r Hr. simpl in *. unfold compose.
  destruct (name r) as [[|c s]|]; done.
Qed.

(** C3. A query of one blank is not empty, so the name filter runs with
    the trimmed, empty, pattern: every name matches it and the pub without
    a name is dropped.  The frame returned is not the frame given. *)
Theorem apply_filters_blank_query_drops_nameless :
  apply_filters re_beyond scenario_nameless [] " " "All" = Ok scenario
  /\ strip " " = "" /\ scenario <> scenario_nameless.
Proof. by split_and!. Qed.

(** C4. The query is compiled as a pattern: [.] stands for any character,
    so the query "." keeps every named pub of the scenario although no
    name contains a full stop; and the query "(" is no pattern at all, so
    the call raises instead of keeping the pubs whose name has a bracket. *)
Theorem apply_filters_dot_query_keeps_all :
  apply_filters re_beyond scenario [] "." "All" = Ok scenario
  /\ List.filter (name_matches ".") scenario = []
  /\ apply_filters re_beyond scenario [] "(" "All" = Raise re_error.
Proof. by split_and!. Qed.

End FilterFacts.

(** ** The length column *)

Lemma apply_len_spec (data : DataFrame) :
  match apply len (map name data) with
  | Ok lengths =>
      Forall2 (fun r n => name r <> None
                          /\ option_map String.length (name r) = Some n)
              data lengths
  | Raise e => e = TypeError /\ Exists (fun r => name r = None) data
  end.
Proof.
  induction data as [|r data IH]; simpl; [constructor|].
  destruct (name r) as [s|] eqn:Hr; simpl.
  - destruct (apply len (map name data)) as [lengths|e]; simpl.
    + constructor; [by rewrite Hr|done].
    + destruct IH as [-> IH]. split; [done|]. by apply Exists_cons_tl.
  - split; [done|]. by apply Exists_cons_hd.
Qed.

Lemma assign_name_length_loaded (data : DataFrame) (lengths : list nat) :
  length lengths = length data ->
  map loaded (assign_name_length data lengths) = map loaded data.
Proof.
  revert lengths. induction data as [|r data IH]; intros [|n lengths];
    simpl; try done.
  intros [= Hlen]. f_equal. by apply IH.
Qed.

(** C1 (as the code has it). [display_sorted_pubs] keeps the rows of the
    frame it is given, their order and every column [load_data] named.  It
    leaves the frame as it was when the frame is empty or a name is missing;
    otherwise the frame leaves with one more column, [name_length], holding
    for each row the length of its name. *)
Theorem display_sorted_pubs_frame (data : DataFrame) :
  let data' := fst (display_sorted_pubs data) in
  map loaded data' = map loaded data
  /\ (data = [] \/ Exists (fun r => name r = None) data -> data' = data)
  /\ (data <> [] -> Forall (fun r => name r <> None) data ->
      Forall (fun r => name_length r = option_map String.length (name r))
             data').
Proof.
  unfold display_sorted_pubs. destruct data as [|r0 data0] eqn:Hd; simpl negb.
  { split_and!; [done|done|]. by intros []. }
  rewrite <- Hd. cbv iota.
  pose proof (apply_len_spec (r0 :: data0)) as Hspec. rewrite <- Hd in Hspec.
  destruct (apply len (map name data)) as [lengths|e]; simpl.
  - split_and!.
    + apply assign_name_length_loaded. symmetry. by eapply Forall2_length.
    + intros [?|Hex]; [congruence|]. exfalso.
      apply Exists_exists in Hex as (r & Hr & Hn).
      apply list_elem_of_lookup in Hr as [i Hi].
      destruct (Forall2_lookup_l _ _ _ _ _ Hspec Hi) as (n & _ & Hrn & _).
      done.
    + intros _ _. clear Hd. induction Hspec as [|r n d l [_ Hrn] _ IH];
        simpl; [constructor|]. constructor; [by simpl|done].
  - destruct Hspec as [-> Hex]. split_and!; [done|done|].
    intros _ Hall. exfalso.
    apply Exists_exists in Hex as (r & Hr & Hn).
    by eapply Forall_forall in Hall.
Qed.

Lemma display_sorted_pubs_frame_witness :
  fst (display_sorted_pubs scenario_nameless) = scenario_nameless
  /\ Forall (fun r => name_length r = option_map String.length (name r))
            (fst (display_sorted_pubs scenario)).
Proof.
  split.
  - apply (display_sorted_pubs_frame scenario_nameless). right.
    unfold scenario_nameless, scenario.
    do 3 apply Exists_cons_tl. apply Exists_cons_hd. reflexivity.
  - apply (display_sorted_pubs_frame scenario).
    + discriminate.
    + unfold scenario. repeat constructor; discriminate.
Defined.

(** C1 (as the specification has it) fails: the scenario's frame comes back
    from [display_sorted_pubs] with the [name_length] column set. *)
Lemma display_sorted_pubs_mutates_input :
  fst (display_sorted_pubs scenario) <> scenario
  /\ map name_length (fst (display_sorted_pubs scenario))
     = [Some 8; Some 2; Some 9].
Proof. split; [discriminate|reflexivity]. Qed.

(** C6. A frame that is not empty and holds a row without a name makes
    [display_sorted_pubs] raise: [len] has no value on the cell, no length
    is put in its place and no table is shown.  The frame is left as it
    was. *)
Theorem display_sorted_pubs_missing_name (data : DataFrame) :
  data <> [] -> Exists (fun r => name r = None) data ->
  display_sorted_pubs data = (data, Raise TypeError).
Proof.
  intros Hne Hex. unfold display_sorted_pubs.
  destruct data as [|r0 data0] eqn:Hd; [done|]. simpl negb. cbv iota.
  rewrite <- Hd in *. pose proof (apply_len_spec data) as Hspec.
  destruct (apply len (map name data)) as [lengths|e].
  - exfalso. apply Exists_exists in Hex as (r & Hr & Hn).
    apply list_elem_of_lookup in Hr as [i Hi].
    destruct (Forall2_lookup_l _ _ _ _ _ Hspec Hi) as (n & _ & Hrn & _).
    done.
  - by destruct Hspec as [-> _].
Qed.

Lemma display_sorted_pubs_missing_name_witness :
  display_sorted_pubs scenario_nameless = (scenario_nameless, Raise TypeError).
Proof.
  apply (display_sorted_pubs_missing_name scenario_nameless).
  - discriminate.
  - unfold scenario_nameless, scenario.
    do 3 apply Exists_cons_tl. apply Exists_cons_hd. reflexivity.
Defined.

(** ** The saved list *)

Lemma save_all_saved_list (names : list cell) (session_state : SessionState) :
  Forall (fun pub_name => pub_name <> Some "None") names ->
  names <> [] ->
  saved_pubs (save_all session_state names)
  = Some (saved_list session_state ++ names)%list.
Proof.
  revert session_state. induction names as [|pub_name names IH]; [done|].
  intros st Hall _. inversion Hall as [|? ? Hp Hall']; subst.
  unfold save_all. simpl fold_left. fold (save_all).
  change (fold_left _ names ?s) with (save_all s names).
  set (st' := mkSession _).
  assert (Hst' : saved_list st' = (saved_list st ++ [pub_name])%list).
  { subst st'. unfold saved_list at 1. simpl. unfold save. simpl.
    rewrite bool_decide_eq_false_2 by done. simpl.
    unfold saved_list. by destruct (saved_pubs st). }
  destruct names as [|n names'].
  - simpl. subst st'. simpl. f_equal. unfold saved_list in Hst'. simpl in Hst'.
    done.
  - rewrite IH; [|done|done]. rewrite Hst'. by rewrite <- app_assoc.
Qed.

(** C9. Saving with the "None" option selected leaves the saved list as it
    is, the empty list included.  Saving any other option puts it at the end
    of the list, whatever the list or the current frame holds.  A session
    that saves k options, none of them "None", ends with exactly these k, in
    the order they were saved. *)
Theorem save_appends_unless_none :
  (forall (saved : list cell) (button : bool),
      save saved button (Some "None") = saved)
  /\ (forall (saved : list cell) (pub_name : cell),
        pub_name <> Some "None" ->
        save saved true pub_name = (saved ++ [pub_name])%list)
  /\ (forall names : list cell,
        Forall (fun pub_name => pub_name <> Some "None") names ->
        saved_list (save_all (mkSession None) names) = names).
Proof.
  split_and!.
  - intros saved button. unfold save. by rewrite bool_decide_eq_true_2, andb_false_r.
  - intros saved pub_name Hp. unfold save.
    by rewrite bool_decide_eq_false_2.
  - intros names Hall. destruct names as [|n names]; [done|].
    unfold saved_list at 1. by rewrite save_all_saved_list.
Qed.

Lemma save_appends_unless_none_witness :
  save [Some "Ox"] true (Some "Ox") = [Some "Ox"; Some "Ox"]
  /\ saved_list (save_all (mkSession None) [Some "Ox"; Some "Ox"])
     = [Some "Ox"; Some "Ox"].
Proof.
  destruct save_appends_unless_none as (_ & Happend & Hall). split.
  - apply (Happend [Some "Ox"] (Some "Ox")). discriminate.
  - apply (Hall [Some "Ox"; Some "Ox"]). repeat constructor; discriminate.
Defined.

(** ** numpy's sort: the insertion sort of a short partition *)

Section ArgsortFacts.

Variable v : list nat.

Lemma key_middle (A C : list nat) (x : nat) :
  key v (A ++ x :: C) (length A) = v !!! x.
Proof. unfold key. by rewrite list_lookup_total_middle. Qed.

Lemma insert_middle (A C : list nat) (x y : nat) :
  <[length A := y]> (A ++ x :: C) = A ++ y :: C.
Proof.
  replace (length A) with (length A + 0) by lia. by rewrite insert_app_r.
Qed.

Lemma insert_after_middle (A C : list nat) (a x y : nat) :
  <[S (length A) := y]> (A ++ a :: x :: C) = A ++ a :: y :: C.
Proof.
  replace (S (length A)) with (length A + 1) by lia. by rewrite insert_app_r.
Qed.

(** The shifting loop opens the gap where the entry belongs: behind the
    entries whose key is not larger, before those whose key is larger. *)
Lemma shift_right_spec (vp : nat) (A C : list nat) (x : nat) :
  exists (A1 A2 : list nat) (x' : nat),
    A = A1 ++ A2
    /\ shift_right v vp (length A) (A ++ x :: C)
       = (length A1, A1 ++ x' :: A2 ++ C)
    /\ Forall (fun a => vp < v !!! a) A2
    /\ (forall a, last A1 = Some a -> v !!! a <= vp).
Proof.
  revert x C. induction A as [|a A IH] using rev_ind; intros x C.
  - exists [], [], x. by split_and!.
  - rewrite length_app, Nat.add_1_r, <- app_assoc. simpl.
    rewrite key_middle.
    destruct (Nat.ltb_spec vp (v !!! a)) as [Hlt|Hge].
    + rewrite list_lookup_total_middle by done.
      rewrite insert_after_middle.
      destruct (IH a (a :: C)) as (A1 & A2 & x' & -> & Heq & HA2 & HA1).
      exists A1, (A2 ++ [a]), x'. split_and!.
      * by rewrite app_assoc.
      * rewrite Heq. by rewrite <- !app_assoc.
      * apply Forall_app. split; [done|]. by constructor.
      * done.
    + exists (A ++ [a]), [], x. split_and!.
      * by rewrite app_nil_r.
      * rewrite length_app. simpl. rewrite Nat.add_1_r.
        by rewrite <- app_assoc.
      * constructor.
      * intros a'. rewrite last_snoc. by intros [= <-].
Qed.

Lemma insert_entry_spec (S post : list nat) (vi : nat) :
  exists A1 A2 : list nat,
    S = A1 ++ A2
    /\ insert_entry v (S ++ vi :: post) (length S) = A1 ++ vi :: A2 ++ post
    /\ Forall (fun a => v !!! vi < v !!! a) A2
    /\ (forall a, last A1 = Some a -> v !!! a <= v !!! vi).
Proof.
  unfold insert_entry. rewrite list_lookup_total_middle by done.
  destruct (shift_right_spec (v !!! vi) S post vi)
    as (A1 & A2 & x' & -> & -> & HA2 & HA1).
  exists A1, A2. split_and!; try done. apply insert_middle.
Qed.

Lemma ascending_snoc_le (l : list nat) (b y : nat) :
  ascending (fun i => v !!! i) (l ++ [b]) -> y ∈ l ++ [b] ->
  v !!! y <= v !!! b.
Proof.
  intros (Hle & _ & _)%StronglySorted_app [Hy|Hy]%elem_of_app.
  - apply Hle; [done|]. by apply list_elem_of_singleton.
  - apply list_elem_of_singleton in Hy as ->. done.
Qed.

Lemma ascending_insert (A1 A2 : list nat) (vi : nat) :
  ascending (fun i => v !!! i) (A1 ++ A2) ->
  Forall (fun a => v !!! vi < v !!! a) A2 ->
  (forall a, last A1 = Some a -> v !!! a <= v !!! vi) ->
  ascending (fun i => v !!! i) (A1 ++ vi :: A2).
Proof.
  intros Hs HA2 HA1. pose proof Hs as (H12 & H1 & H2)%StronglySorted_app.
  apply StronglySorted_app. split_and!; [|done|].
  - intros x1 x2 Hx1 [->|Hx2]%elem_of_cons; [|by apply H12].
    destruct A1 as [|b A1 _] using rev_ind; [by apply elem_of_nil in Hx1|].
    etrans; [by eapply ascending_snoc_le|]. apply HA1, last_snoc.
  - constructor; [done|]. eapply Forall_impl; [done|]. simpl. lia.
Qed.

Lemma with_key_insert (A1 A2 : list nat) (vi k : nat) :
  Forall (fun a => v !!! vi < v !!! a) A2 ->
  with_key (fun i => v !!! i) k (A1 ++ vi :: A2)
  = with_key (fun i => v !!! i) k ((A1 ++ A2) ++ [vi]).
Proof.
  intros HA2. unfold with_key. rewrite !filter_app, filter_cons.
  rewrite <- app_assoc. f_equal. rewrite filter_cons, filter_nil.
  case_decide as Hk; [|by rewrite app_nil_r].
  assert (filter (fun a => v !!! a = k) A2 = []) as ->; [|done].
  clear -HA2 Hk. induction HA2 as [|a A2 Ha _ IH]; [done|].
  rewrite filter_cons_False by lia. done.
Qed.

(** The rounds of the insertion sort, from a sorted front [S] on. *)
Lemma insertion_rounds (post S : list nat) :
  ascending (fun i => v !!! i) S ->
  let r := fold_left (insert_entry v) (seq (length S) (length post))
             (S ++ post) in
  r ≡ₚ S ++ post
  /\ ascending (fun i => v !!! i) r
  /\ forall k, with_key (fun i => v !!! i) k r
               = with_key (fun i => v !!! i) k (S ++ post).
Proof.
  revert S. induction post as [|vi post IH]; intros S HS; simpl.
  - rewrite app_nil_r. by split_and!.
  - destruct (insert_entry_spec S post vi) as (A1 & A2 & -> & -> & HA2 & HA1).
    replace (A1 ++ vi :: A2 ++ post) with ((A1 ++ vi :: A2) ++ post)
      by (by rewrite <- app_assoc).
    replace (Datatypes.S (length (A1 ++ A2)))
      with (length (A1 ++ vi :: A2))
      by (rewrite !length_app; simpl; lia).
    destruct (IH (A1 ++ vi :: A2)) as (Hp & Hs & Hk).
    { by apply ascending_insert. }
    split_and!.
    + rewrite Hp. rewrite <- !app_assoc. simpl.
      apply Permutation_app_head, Permutation_middle.
    + done.
    + intros k. rewrite Hk. unfold with_key in *.
      rewrite (filter_app _ (A1 ++ vi :: A2)).
      fold (with_key (fun i => v !!! i) k (A1 ++ vi :: A2)).
      rewrite with_key_insert by done. unfold with_key.
      rewrite <- filter_app. f_equal. by rewrite <- !app_assoc.
Qed.

(** The insertion sort is a stable sort. *)
Lemma insertion_sort_spec (t : list nat) :
  insertion_sort v t ≡ₚ t
  /\ ascending (fun i => v !!! i) (insertion_sort v t)
  /\ forall k, with_key (fun i => v !!! i) k (insertion_sort v t)
               = with_key (fun i => v !!! i) k t.
Proof.
  unfold insertion_sort. destruct t as [|x post]; [by split_and!; try constructor|].
  replace (length (x :: post) - 1) with (length post) by (simpl; lia).
  apply (insertion_rounds post [x]). repeat constructor.
Qed.

(** *** The partition *)

Lemma swap_length (i j : nat) (t : list nat) :
  length (swap i j t) = length t.
Proof. unfold swap. by rewrite !length_insert. Qed.

Lemma swap_lookup (i j k : nat) (t : list nat) :
  i < length t -> j < length t ->
  swap i j t !!! k
  = if decide (k = j) then t !!! i
    else if decide (k = i) then t !!! j else t !!! k.
Proof.
  intros Hi Hj. unfold swap. case_decide as Hkj.
  - subst. by rewrite list_lookup_total_insert_eq by (by rewrite length_insert).
  - rewrite list_lookup_total_insert_ne by done. case_decide as Hki.
    + subst. by rewrite list_lookup_total_insert_eq.
    + by rewrite list_lookup_total_insert_ne.
Qed.

Lemma key_swap (i j k : nat) (t : list nat) :
  i < length t -> j < length t ->
  key v (swap i j t) k
  = if decide (k = j) then key v t i
    else if decide (k = i) then key v t j else key v t k.
Proof.
  intros Hi Hj. unfold key. rewrite swap_lookup by done.
  by repeat case_decide.
Qed.

Lemma swap_Permutation (i j : nat) (t : list nat) :
  i < length t -> j < length t -> swap i j t ≡ₚ t.
Proof.
  intros Hi Hj. unfold swap.
  apply Permutation_insert_swap; by apply list_lookup_lookup_total_lt.
Qed.

Lemma scan_up_spec (vp fuel pi s : nat) (t : list nat) :
  pi < s -> s - pi <= fuel -> vp <= key v t s ->
  let pi' := scan_up v vp fuel pi t in
  pi < pi' <= s /\ vp <= key v t pi'
  /\ forall i, pi < i < pi' -> key v t i < vp.
Proof.
  revert pi. induction fuel as [|fuel IH]; intros pi Hs Hfuel Hstop; [lia|].
  simpl. destruct (Nat.ltb_spec (key v t (S pi)) vp) as [Hlt|Hge].
  - assert (S pi <> s) by (intros <-; lia).
    destruct (IH (S pi)) as (Hr & Hk & Hbelow); [lia|lia|done|].
    split_and!; [lia|lia|done|].
    intros i Hi. destruct (decide (i = S pi)) as [->|]; [done|].
    apply Hbelow. lia.
  - split_and!; [lia|lia|done|]. intros i Hi. lia.
Qed.

Lemma scan_down_spec (vp pj s : nat) (t : list nat) :
  s < pj -> key v t s <= vp ->
  let pj' := scan_down v vp pj t in
  s <= pj' < pj /\ key v t pj' <= vp
  /\ forall j, pj' < j < pj -> vp < key v t j.
Proof.
  induction pj as [|pj IH]; intros Hs Hstop; [lia|].
  simpl. destruct (Nat.ltb_spec vp (key v t pj)) as [Hlt|Hge].
  - assert (pj <> s) by (intros ->; lia).
    destruct IH as (Hr & Hk & Habove); [lia|done|].
    split_and!; [lia|lia|done|].
    intros j Hj. destruct (decide (j = pj)) as [->|]; [done|].
    apply Habove. lia.
  - split_and!; [lia|lia|done|]. intros j Hj. lia.
Qed.

(** The loop of the partition: the entries up to [pi] have keys at most
    [vp], those from [pj] on have keys at least [vp], and the scans stop
    inside the partition because of them. *)
Lemma partition_loop_spec (vp fuel pi pj : nat) (t : list nat) :
  pi < pj -> pj < length t -> pj - pi <= fuel ->
  (forall i, i <= pi -> key v t i <= vp) ->
  (forall j, pj <= j < length t -> vp <= key v t j) ->
  exists (pi' : nat) (t' : list nat),
    partition_loop v vp fuel pi pj t = (pi', t')
    /\ t' ≡ₚ t
    /\ pi < pi' <= pj
    /\ (forall i, i < pi' -> key v t' i <= vp)
    /\ (forall j, pi' <= j < length t -> vp <= key v t' j)
    /\ (forall k, pj <= k -> t' !!! k = t !!! k).
Proof.
  revert pi pj t. induction fuel as [|fuel IH];
    intros pi pj t Hij Hpj Hfuel Hlow Hhigh; [lia|].
  simpl.
  destruct (scan_up_spec vp (length t) pi pj t) as (Hi' & Hki' & Hbelow);
    [done|lia|apply Hhigh; lia|].
  destruct (scan_down_spec vp pj pi t) as (Hj' & Hkj' & Habove);
    [done|by apply Hlow|].
  set (pi' := scan_up v vp (length t) pi t) in *.
  set (pj' := scan_down v vp pj t) in *.
  assert (Hlow' : forall i, i < pi' -> key v t i <= vp).
  { intros i Hi. destruct (decide (i <= pi)); [by apply Hlow|].
    apply Nat.lt_le_incl, Hbelow. lia. }
  assert (Hhigh' : forall j, pj' < j < length t -> vp <= key v t j).
  { intros j Hj. destruct (decide (pj <= j)); [apply Hhigh; lia|].
    apply Nat.lt_le_incl, Habove. lia. }
  destruct (Nat.leb_spec pj' pi') as [Hle|Hlt].
  - exists pi', t. split_and!; try done; try lia.
    intros j Hj. destruct (decide (j = pi')) as [->|]; [done|].
    apply Hhigh'. lia.
  - destruct (IH pi' pj' (swap pi' pj' t))
      as (pi'' & t'' & -> & Hp & Hr & Hl & Hh & Hsame).
    + done.
    + rewrite swap_length. lia.
    + lia.
    + intros i Hi. rewrite key_swap by lia. repeat case_decide.
      * lia.
      * exact Hkj'.
      * apply Hlow'. lia.
    + intros j. rewrite swap_length. intros Hj.
      rewrite key_swap by lia. repeat case_decide.
      * exact Hki'.
      * lia.
      * apply Hhigh'. lia.
    + exists pi'', t''. split_and!; try done; try lia.
      * rewrite Hp. apply swap_Permutation; lia.
      * intros j Hj. apply Hh. by rewrite swap_length.
      * intros k Hk. rewrite Hsame by lia. rewrite swap_lookup by lia.
        repeat case_decide; first [lia|done].
Qed.

(** A conditional swap of the median-of-three: afterwards entry [j] has
    the smaller key, entry [i] the larger one. *)
Lemma order_pair_spec (i j : nat) (t : list nat) :
  i < length t -> j < length t -> i <> j ->
  let t' := if key v t i <? key v t j then swap i j t else t in
  length t' = length t /\ t' ≡ₚ t
  /\ key v t' j = key v t i `min` key v t j
  /\ key v t' i = key v t i `max` key v t j
  /\ forall k, k <> i -> k <> j -> key v t' k = key v t k.
Proof.
  intros Hi Hj Hij. simpl.
  destruct (Nat.ltb_spec (key v t i) (key v t j)) as [Hlt|Hge].
  - split_and!.
    + apply swap_length.
    + by apply swap_Permutation.
    + rewrite key_swap by done. rewrite decide_True by done. lia.
    + rewrite key_swap by done. rewrite decide_False, decide_True by done.
      lia.
    + intros k Hki Hkj. rewrite key_swap by done.
      by rewrite !decide_False by done.
  - split_and!; try done; lia.
Qed.

Lemma partition_spec (t : list nat) :
  3 <= length t ->
  exists (pi : nat) (t' : list nat),
    partition v t = (pi, t')
    /\ t' ≡ₚ t
    /\ pi < length t
    /\ (forall i, i < pi -> key v t' i <= key v t' pi)
    /\ (forall j, pi < j < length t -> key v t' pi <= key v t' j).
Proof.
  intros Hn. unfold partition.
  set (pr := length t - 1).
  set (pm := 0 + (pr - 0) / 2).
  assert (Hpm : 1 <= pm <= pr - 1).
  { subst pm pr. rewrite Nat.sub_0_r, Nat.add_0_l.
    split.
    - apply Nat.div_le_lower_bound; lia.
    - apply Nat.lt_succ_r, Nat.Div0.div_lt_upper_bound. lia. }
  assert (Hpr : pr = length t - 1) by done. clearbody pr pm.
  destruct (order_pair_spec pm 0 t) as (Hl1 & Hp1 & Hmin1 & Hmax1 & Hk1);
    [lia|lia|lia|].
  set (t1 := if key v t pm <? key v t 0 then swap pm 0 t else t) in *.
  clearbody t1.
  destruct (order_pair_spec pr pm t1) as (Hl2 & Hp2 & Hmin2 & Hmax2 & Hk2);
    [lia|lia|lia|].
  set (t2 := if key v t1 pr <? key v t1 pm then swap pr pm t1 else t1) in *.
  clearbody t2.
  destruct (order_pair_spec pm 0 t2) as (Hl3 & Hp3 & Hmin3 & Hmax3 & Hk3);
    [lia|lia|lia|].
  set (t3 := if key v t2 pm <? key v t2 0 then swap pm 0 t2 else t2) in *.
  clearbody t3.
  assert (H0 : key v t3 0 <= key v t3 pm) by lia.
  assert (Hr : key v t3 pm <= key v t3 pr).
  { rewrite (Hk3 pr) by lia. rewrite Hmax3. rewrite (Hk2 0) in * by lia. lia. }
  set (vp := key v t3 pm) in *.
  set (t4 := swap pm (pr - 1) t3).
  assert (Hl4 : length t4 = length t) by (subst t4; rewrite swap_length; lia).
  assert (Hp4 : t4 ≡ₚ t).
  { subst t4. rewrite swap_Permutation by lia. by rewrite Hp3, Hp2. }
  assert (Hk4 : forall k, key v t4 k
                 = if decide (k = pr - 1) then vp
                   else if decide (k = pm) then key v t3 (pr - 1)
                        else key v t3 k).
  { intros k. subst t4. by rewrite key_swap by lia. }
  clearbody t4.
  destruct (partition_loop_spec vp (length t4) 0 (pr - 1) t4)
    as (pi & t5 & -> & Hp5 & Hpi & Hlow & Hhigh & Hsame).
  { lia. }
  { lia. }
  { lia. }
  { intros i Hi. assert (i = 0) as -> by lia. rewrite Hk4.
    rewrite !decide_False by lia. done. }
  { intros j Hj. rewrite Hk4. case_decide; [done|].
    assert (j = pr) as -> by lia. rewrite decide_False by lia. done. }
  assert (Hl5 : length t5 = length t) by (by rewrite Hp5).
  assert (Hpivot : key v t5 (pr - 1) = vp).
  { unfold key. rewrite Hsame by lia. specialize (Hk4 (pr - 1)).
    rewrite decide_True in Hk4 by done. done. }
  assert (Hkpi : key v (swap pi (pr - 1) t5) pi = vp).
  { rewrite key_swap by lia. destruct (decide (pi = pr - 1)) as [Heq|];
      [by rewrite Heq|]. by rewrite decide_True. }
  exists pi, (swap pi (pr - 1) t5). split_and!.
  - done.
  - rewrite swap_Permutation by lia. by rewrite Hp5.
  - lia.
  - intros i Hi. rewrite Hkpi, key_swap by lia.
    rewrite !decide_False by lia. by apply Hlow.
  - intros j Hj. rewrite Hkpi, key_swap by lia.
    destruct (decide (j = pr - 1)); [apply Hhigh; lia|].
    rewrite decide_False by lia. apply Hhigh. lia.
Qed.

(** *** The heapsort *)

Lemma key_insert (i x k : nat) (t : list nat) :
  i < length t ->
  key v (<[i := x]> t) k = if decide (k = i) then v !!! x else key v t k.
Proof.
  intros Hi. unfold key. case_decide as Hk.
  - subst. by rewrite list_lookup_total_insert_eq.
  - by rewrite list_lookup_total_insert_ne.
Qed.

Lemma sift_S (fuel n tmp i j : nat) (t : list nat) :
  sift v (S fuel) n tmp i j t
  = if j <=? n then
      let j' := if (j <? n) && (key v t (j - 1) <? key v t j)
                then j + 1 else j in
      if v !!! tmp <? key v t (j' - 1)
      then sift v fuel n tmp j' (j' + j') (<[i - 1 := t !!! (j' - 1)]> t)
      else <[i - 1 := tmp]> t
    else <[i - 1 := tmp]> t.
Proof. reflexivity. Qed.

(** The larger child of [i] among the entries up to [n]. *)
Lemma larger_child (n i : nat) (t : list nat) :
  1 <= i -> i + i <= n ->
  let j := i + i in
  let j' := if (j <? n) && (key v t (j - 1) <? key v t j) then j + 1 else j in
  (j' = i + i \/ j' = i + i + 1) /\ j' <= n
  /\ forall c, c / 2 = i -> c <= n -> key v t (c - 1) <= key v t (j' - 1).
Proof.
  intros Hi Hn. simpl.
  assert (Hc : forall c, c / 2 = i -> c = i + i \/ c = i + i + 1)
    by (intros; halves).
  destruct (Nat.ltb_spec (i + i) n) as [Hlt|Hge]; simpl.
  - destruct (Nat.ltb_spec (key v t (i + i - 1)) (key v t (i + i)))
      as [Hk|Hk].
    + split_and!; [by right|lia|]. intros c [->| ->]%Hc _.
      * replace (i + i + 1 - 1) with (i + i) by lia. lia.
      * done.
    + split_and!; [by left|lia|]. intros c [->| ->]%Hc _.
      * done.
      * replace (i + i + 1 - 1) with (i + i) by lia. done.
  - split_and!; [by left|lia|]. intros c [->| ->]%Hc Hle; [done|lia].
Qed.

(** The hole goes down from [i] until [tmp] fits: the outcome has the
    entries of the array with [tmp] in the hole, in heap order from [lo]
    on, and leaves the entries behind [n] alone. *)
Lemma sift_spec (fuel n tmp lo i : nat) (t : list nat) :
  1 <= lo -> lo <= i -> i <= n -> n <= length t -> n < i + fuel ->
  let f := <[i - 1 := tmp]> t in
  (forall c, lo <= c / 2 -> c <= n -> c / 2 <> i ->
             key v f (c - 1) <= key v f (c / 2 - 1)) ->
  (forall c, c / 2 = i -> c <= n -> lo <= i / 2 ->
             key v f (c - 1) <= key v f (i / 2 - 1)) ->
  let r := sift v fuel n tmp i (i + i) t in
  r ≡ₚ f /\ heap_from v r lo n /\ drop n r = drop n f.
Proof.
  revert i t. induction fuel as [|fuel IH];
    intros i t Hlo Hi Hin Hn Hfuel f Hheap Hgrand; [lia|].
  cbv zeta. rewrite sift_S.
  assert (Hkf : forall k, key v f k
                  = if decide (k = i - 1) then v !!! tmp else key v t k).
  { intros k. subst f. apply key_insert. lia. }
  destruct (Nat.leb_spec (i + i) n) as [Hchild|Hleaf].
  - destruct (larger_child n i t) as (Hj & Hjn & Hmax); [lia|done|].
    simpl in Hj, Hjn, Hmax. cbv zeta.
    set (j := if (i + i <? n) && (key v t (i + i - 1) <? key v t (i + i))
              then i + i + 1 else i + i) in *.
    clearbody j.
    assert (Hji : j / 2 = i) by (destruct Hj; subst j; halves).
    destruct (Nat.ltb_spec (v !!! tmp) (key v t (j - 1))) as [Hlt|Hge].
    + set (t' := <[i - 1 := t !!! (j - 1)]> t).
      assert (Hlen' : length t' = length t) by (subst t'; apply length_insert).
      set (f' := <[j - 1 := tmp]> t').
      assert (Hkf' : forall k, key v f' k
                       = if decide (k = j - 1) then v !!! tmp
                         else if decide (k = i - 1) then key v t (j - 1)
                              else key v t k).
      { intros k. subst f' t'. rewrite key_insert
          by (rewrite length_insert; lia).
        case_decide; [done|]. by rewrite key_insert by lia. }
      assert (Hff' : f' = swap (i - 1) (j - 1) f).
      { subst f' t' f. unfold swap.
        rewrite list_lookup_total_insert_eq by lia.
        rewrite list_lookup_total_insert_ne by lia.
        by rewrite list_insert_insert_eq. }
      destruct (IH j t') as (Hp & Hh & Hd); try lia.
      * fold f'. intros c Hc Hcn Hcj. rewrite !Hkf'.
        destruct (decide (c / 2 = i)) as [Hci|Hci].
        -- rewrite Hci. rewrite (decide_False (P := i - 1 = j - 1)) by lia.
           rewrite (decide_True (P := i - 1 = i - 1)) by done.
           case_decide; [lia|]. rewrite decide_False by halves.
           by apply Hmax.
        -- rewrite (decide_False (P := c / 2 - 1 = j - 1)) by halves.
           rewrite (decide_False (P := c / 2 - 1 = i - 1)) by halves.
           rewrite (decide_False (P := c - 1 = j - 1)) by halves.
           case_decide as Hcc.
           ++ assert (c = i) as -> by halves.
              specialize (Hgrand j Hji Hjn ltac:(lia)).
              rewrite !Hkf in Hgrand.
              rewrite decide_False in Hgrand by lia.
              rewrite decide_False in Hgrand by halves. done.
           ++ specialize (Hheap c Hc Hcn Hci). rewrite !Hkf in Hheap.
              rewrite decide_False in Hheap by done.
              rewrite decide_False in Hheap by halves. done.
      * fold f'. intros c Hcj Hcn _. rewrite Hji. rewrite !Hkf'.
        rewrite (decide_False (P := c - 1 = j - 1)) by halves.
        rewrite (decide_False (P := c - 1 = i - 1)) by halves.
        rewrite (decide_False (P := i - 1 = j - 1)) by lia.
        rewrite (decide_True (P := i - 1 = i - 1)) by done.
        specialize (Hheap c ltac:(lia) Hcn ltac:(lia)). rewrite !Hkf in Hheap.
        rewrite decide_False in Hheap by halves.
        rewrite Hcj in Hheap. rewrite decide_False in Hheap by lia. done.
      * fold f' in Hp, Hd. split_and!.
        -- rewrite Hp, Hff'. apply swap_Permutation; subst f;
             rewrite length_insert; lia.
        -- done.
        -- rewrite Hd, Hff'. unfold swap.
           rewrite !drop_insert_lt by lia. done.
    + split_and!; [done| |done]. intros c Hc Hcn. fold f. rewrite !Hkf.
      destruct (decide (c / 2 = i)) as [Hci|Hci].
      * rewrite Hci. rewrite (decide_True (P := i - 1 = i - 1)) by done.
        rewrite decide_False by halves. etrans; [by apply Hmax|done].
      * specialize (Hheap c Hc Hcn Hci). by rewrite !Hkf in Hheap.
  - split_and!; [done| |done]. intros c Hc Hcn. apply Hheap; [done|done|].
    halves.
Qed.

Lemma heapify_S (n l : nat) (t : list nat) :
  heapify v n (S l) t
  = heapify v n l (sift v n n (t !!! (S l - 1)) (S l) (S l + S l) t).
Proof. reflexivity. Qed.

(** Building the heap, from the last parent down to the root. *)
Lemma heapify_spec (n l : nat) (t : list nat) :
  l + l <= n -> n <= length t -> heap_from v t (l + 1) n ->
  let r := heapify v n l t in
  r ≡ₚ t /\ heap_from v r 1 n /\ drop n r = drop n t.
Proof.
  revert t. induction l as [|l IH]; intros t Hl Hn Hheap; [done|].
  cbv zeta. rewrite heapify_S.
  assert (Hf : <[S l - 1 := t !!! (S l - 1)]> t = t).
  { apply list_insert_id, list_lookup_lookup_total_lt. lia. }
  destruct (sift_spec n n (t !!! (S l - 1)) (S l) (S l) t)
    as (Hp & Hh & Hd); try lia.
  - rewrite Hf. intros c Hc Hcn Hne. apply Hheap; [lia|done].
  - intros c _ _ Hc. exfalso. halves.
  - rewrite Hf in Hp, Hd.
    set (r1 := sift v n n (t !!! (S l - 1)) (S l) (S l + S l) t) in *.
    destruct (IH r1) as (Hp' & Hh' & Hd').
    + lia.
    + rewrite Hp. done.
    + by rewrite Nat.add_1_r.
    + split_and!; [by rewrite Hp'|done|by rewrite Hd'].
Qed.

(** In heap order the root has the largest key. *)
Lemma heap_root_max (n : nat) (t : list nat) :
  heap_from v t 1 n ->
  forall k, 1 <= k <= n -> key v t (k - 1) <= key v t 0.
Proof.
  intros Hheap k. induction k as [k IH] using lt_wf_ind. intros Hk.
  destruct (decide (k = 1)) as [->|]; [done|].
  etrans; [apply Hheap; [halves|lia]|].
  apply IH; halves.
Qed.

Lemma heap_root_max_elem (n x : nat) (t : list nat) :
  heap_from v t 1 n -> n <= length t -> x ∈ take n t ->
  v !!! x <= key v t 0.
Proof.
  intros Hheap Hn [k Hk]%list_elem_of_lookup.
  pose proof (lookup_lt_Some _ _ _ Hk) as Hlt. rewrite length_take in Hlt.
  rewrite lookup_take_lt in Hk by lia.
  pose proof (heap_root_max n t Hheap (S k) ltac:(lia)) as Hmax.
  replace (S k - 1) with k in Hmax by lia. unfold key in Hmax at 1.
  by rewrite (list_lookup_total_correct _ _ _ Hk) in Hmax.
Qed.

Lemma extract_SS (m : nat) (t : list nat) :
  extract v (S (S m)) t
  = extract v (S m)
      (sift v (S m) (S m) (t !!! (S (S m) - 1)) 1 2
         (<[S (S m) - 1 := t !!! 0]> t)).
Proof. reflexivity. Qed.

(** Taking the root out of the heap, again and again: the entries behind
    [n] are in ascending order and not smaller than the heap's. *)
Lemma extract_spec (n : nat) (t : list nat) :
  n <= length t -> heap_from v t 1 n ->
  ascending (fun i => v !!! i) (drop n t) ->
  (forall x y, x ∈ take n t -> y ∈ drop n t -> v !!! x <= v !!! y) ->
  let r := extract v n t in
  r ≡ₚ t /\ ascending (fun i => v !!! i) r.
Proof.
  revert t. induction n as [|n IH]; intros t Hn Hheap Hsorted Hcross.
  { by rewrite drop_0 in Hsorted. }
  destruct n as [|m].
  { simpl. split; [done|]. rewrite <- (take_drop 1 t).
    apply StronglySorted_app. split_and!; [done| |done].
    destruct t as [|x [|y t]]; simpl; repeat constructor. }
  cbv zeta. rewrite extract_SS.
  replace (S (S m) - 1) with (S m) by lia.
  set (n' := S m) in *.
  set (t1 := <[n' := t !!! 0]> t).
  set (f := <[0 := t !!! n']> t1).
  assert (Hlen1 : length t1 = length t) by apply length_insert.
  assert (Hkf : forall k, key v f k
                  = if decide (k = 0) then v !!! (t !!! n')
                    else if decide (k = n') then v !!! (t !!! 0)
                         else key v t k).
  { intros k. subst f t1. rewrite key_insert by (rewrite length_insert; lia).
    case_decide; [done|]. by rewrite key_insert by lia. }
  assert (Hpf : f ≡ₚ t).
  { subst f t1. change (<[0:=t !!! n']> (<[n':=t !!! 0]> t))
      with (swap n' 0 t). apply swap_Permutation; lia. }
  assert (Hdf : drop n' f = t !!! 0 :: drop (S n') t).
  { subst f t1. rewrite drop_insert_lt by lia.
    rewrite drop_insert_ge by lia. rewrite Nat.sub_diag.
    erewrite drop_S by (apply list_lookup_lookup_total_lt; lia). done. }
  destruct (sift_spec n' n' (t !!! n') 1 1 t1) as (Hp & Hh & Hd); try lia.
  - change (<[1 - 1 := t !!! n']> t1) with f. intros c Hc Hcn Hne.
    rewrite !Hkf. rewrite !decide_False by halves.
    apply Hheap; [done|lia].
  - intros c _ _ Hc. exfalso. halves.
  - change (<[1 - 1 := t !!! n']> t1) with f in Hp, Hd.
    change (1 + 1) with 2 in *.
    set (r1 := sift v n' n' (t !!! n') 1 2 t1) in *.
    assert (Hroot : t !!! 0 ∈ take (S n') t).
    { apply list_elem_of_lookup. exists 0. rewrite lookup_take_lt by lia.
      apply list_lookup_lookup_total_lt. lia. }
    assert (Htake : take n' r1 ++ [t !!! 0] ≡ₚ take (S n') t).
    { apply (inj (.++ drop (S n') t)). rewrite take_drop, <- app_assoc.
      simpl. rewrite <- Hdf, <- Hd, take_drop. by rewrite Hp. }
    destruct (IH r1) as (Hp' & Hs').
    + rewrite Hp, Hpf. lia.
    + done.
    + rewrite Hd, Hdf. constructor; [done|].
      apply Forall_forall. intros y Hy. by apply Hcross.
    + intros x y Hx. rewrite Hd, Hdf. intros [->|Hy]%elem_of_cons.
      * etrans; [apply (heap_root_max_elem (S n') x t); [done|done|]|].
        -- rewrite <- Htake. apply elem_of_app. by left.
        -- done.
      * apply Hcross; [|done]. rewrite <- Htake. apply elem_of_app.
        by left.
    + split; [|done]. by rewrite Hp', Hp.
Qed.

Lemma aheapsort_spec (t : list nat) :
  aheapsort v t ≡ₚ t /\ ascending (fun i => v !!! i) (aheapsort v t).
Proof.
  unfold aheapsort.
  destruct (heapify_spec (length t) (length t / 2) t) as (Hp & Hh & Hd).
  - halves.
  - done.
  - intros c Hc Hcn. exfalso. halves.
  - set (h := heapify v (length t) (length t / 2) t) in *.
    destruct (extract_spec (length t) h) as (Hp' & Hs').
    + by rewrite Hp.
    + done.
    + rewrite drop_ge by (by rewrite Hp). constructor.
    + intros x y _. rewrite drop_ge by (by rewrite Hp).
      by intros ?%elem_of_nil.
    + split; [|done]. by rewrite Hp'.
Qed.

(** *** The whole sort *)

Lemma aquicksort_loop_S (fuel : nat) (cdepth : Z) (t : list nat) :
  aquicksort_loop v (S fuel) cdepth t
  = if SMALL_QUICKSORT <? length t - 1 then
      let '(pi, t) := partition v t in
      let pr := length t - 1 in
      let cdepth := (cdepth - 1)%Z in
      let popped (s : list nat) : list nat :=
        if (cdepth <? 0)%Z then aheapsort v s
        else aquicksort_loop v fuel cdepth s in
      if pi <? pr - pi
      then aquicksort_loop v fuel cdepth (take pi t)
             ++ t !!! pi :: popped (drop (S pi) t)
      else popped (take pi t)
             ++ t !!! pi :: aquicksort_loop v fuel cdepth (drop (S pi) t)
    else insertion_sort v t.
Proof. reflexivity. Qed.

Lemma ascending_join (L R : list nat) (p : nat) :
  ascending (fun i => v !!! i) L -> ascending (fun i => v !!! i) R ->
  Forall (fun x => v !!! x <= v !!! p) L ->
  Forall (fun y => v !!! p <= v !!! y) R ->
  ascending (fun i => v !!! i) (L ++ p :: R).
Proof.
  intros HL HR HLp HRp. apply StronglySorted_app. split_and!; [|done|].
  - intros x y Hx [->|Hy]%elem_of_cons.
    + by eapply Forall_forall in HLp.
    + etrans; [by eapply Forall_forall in HLp|].
      by eapply Forall_forall in HRp.
  - by constructor.
Qed.

Lemma aquicksort_loop_spec (fuel : nat) (cdepth : Z) (t : list nat) :
  length t <= fuel ->
  aquicksort_loop v fuel cdepth t ≡ₚ t
  /\ ascending (fun i => v !!! i) (aquicksort_loop v fuel cdepth t).
Proof.
  revert cdepth t. induction fuel as [|fuel IH]; intros cdepth t Hfuel.
  { destruct t; [|simpl in Hfuel; lia]. split; [done|constructor]. }
  rewrite aquicksort_loop_S. unfold SMALL_QUICKSORT.
  destruct (Nat.ltb_spec 16 (length t - 1)) as [Hbig|Hsmall].
  - destruct (partition_spec t) as (pi & t' & -> & Hp & Hpi & Hlow & Hhigh);
      [lia|].
    assert (Hlen : length t' = length t) by (by rewrite Hp).
    assert (Hmid : t' !! pi = Some (t' !!! pi))
      by (apply list_lookup_lookup_total_lt; lia).
    assert (HL : Forall (fun x => v !!! x <= v !!! (t' !!! pi)) (take pi t')).
    { apply Forall_lookup. intros i x Hi.
      pose proof (lookup_lt_Some _ _ _ Hi) as Hlt. rewrite length_take in Hlt.
      rewrite lookup_take_lt in Hi by lia.
      specialize (Hlow i ltac:(lia)). unfold key in Hlow.
      by rewrite (list_lookup_total_correct _ _ _ Hi) in Hlow. }
    assert (HR : Forall (fun y => v !!! (t' !!! pi) <= v !!! y)
                        (drop (S pi) t')).
    { apply Forall_lookup. intros j y Hj. rewrite lookup_drop in Hj.
      pose proof (lookup_lt_Some _ _ _ Hj) as Hlt.
      specialize (Hhigh (S pi + j) ltac:(lia)). unfold key in Hhigh.
      by rewrite (list_lookup_total_correct _ _ _ Hj) in Hhigh. }
    assert (HlenL : length (take pi t') <= fuel)
      by (rewrite length_take; lia).
    assert (HlenR : length (drop (S pi) t') <= fuel)
      by (rewrite length_drop; lia).
    assert (Hpop : forall s : list nat, length s <= fuel ->
              let r := if (cdepth - 1 <? 0)%Z then aheapsort v s
                       else aquicksort_loop v fuel (cdepth - 1) s in
              r ≡ₚ s /\ ascending (fun i => v !!! i) r).
    { intros s Hs. simpl. destruct (cdepth - 1 <? 0)%Z;
        [apply aheapsort_spec|by apply IH]. }
    cbv zeta.
    destruct (IH (cdepth - 1)%Z (take pi t') HlenL) as (HpL & HsL).
    destruct (IH (cdepth - 1)%Z (drop (S pi) t') HlenR) as (HpR & HsR).
    destruct (Hpop (take pi t') HlenL) as (HpL' & HsL').
    destruct (Hpop (drop (S pi) t') HlenR) as (HpR' & HsR').
    assert (Ht' : take pi t' ++ t' !!! pi :: drop (S pi) t' ≡ₚ t)
      by (by rewrite take_drop_middle).
    destruct (pi <? length t' - 1 - pi).
    + split.
      * by rewrite HpL, HpR'.
      * apply ascending_join; [done|done|by rewrite HpL|by rewrite HpR'].
    + split.
      * by rewrite HpL', HpR.
      * apply ascending_join; [done|done|by rewrite HpL'|by rewrite HpR].
  - destruct (insertion_sort_spec t) as (Hp & Hs & _). done.
Qed.


Lemma aquicksort_spec (t : list nat) :
  aquicksort v t ≡ₚ t /\ ascending (fun i => v !!! i) (aquicksort v t).
Proof. unfold aquicksort. by apply aquicksort_loop_spec. Qed.

End ArgsortFacts.

(** [argsort] returns the positions of the array, each once, in ascending
    order of their keys. *)
Lemma argsort_spec (a : list nat) :
  argsort a ≡ₚ seq 0 (length a)
  /\ ascending (fun i => a !!! i) (argsort a).
Proof. unfold argsort. apply aquicksort_spec. Qed.


(** ** pandas: selecting by position, sorting *)

Lemma iloc_related {A} (obj : list A) (indexer : list nat) :
  Forall (fun i => i < length obj) indexer ->
  Forall2 (fun i x => obj !! i = Some x) indexer (iloc obj indexer).
Proof.
  induction 1 as [|i indexer Hi _ IH]; [constructor|].
  unfold iloc. simpl. destruct (lookup_lt_is_Some_2 obj i Hi) as [x Hx].
  rewrite Hx. by constructor.
Qed.

Lemma iloc_seq {A} (obj : list A) (n : nat) :
  iloc obj (seq 0 n) = take n obj.
Proof.
  induction n as [|n IH]; [done|].
  rewrite seq_S. unfold iloc in *. rewrite omap_app, IH. simpl.
  destruct (obj !! n) as [x|] eqn:Hn; simpl.
  - by rewrite (take_S_r _ _ _ Hn).
  - apply lookup_ge_None in Hn. rewrite app_nil_r.
    by rewrite !take_ge by lia.
Qed.

Lemma iloc_all {A} (obj : list A) : iloc obj (seq 0 (length obj)) = obj.
Proof. by rewrite iloc_seq, firstn_all. Qed.

Lemma iloc_Permutation {A} (obj : list A) (indexer : list nat) :
  indexer ≡ₚ seq 0 (length obj) -> iloc obj indexer ≡ₚ obj.
Proof. intros Hp. unfold iloc. rewrite Hp. fold (iloc obj (seq 0 (length obj))). by rewrite iloc_all. Qed.

Lemma positions_in_range (indexer : list nat) (n : nat) :
  indexer ≡ₚ seq 0 n -> Forall (fun i => i < n) indexer.
Proof.
  intros Hp. rewrite Hp. apply Forall_forall. intros i Hi.
  apply elem_of_seq in Hi. lia.
Qed.

Lemma related_sorted {A B} (P : A -> B -> Prop) (R1 : relation A)
    (R2 : relation B) (l1 : list A) (l2 : list B) :
  (forall a b x y, P a x -> P b y -> R1 a b -> R2 x y) ->
  Forall2 P l1 l2 -> StronglySorted R1 l1 -> StronglySorted R2 l2.
Proof.
  intros HR. induction 1 as [|a x l1 l2 Hax Hl IH]; [constructor|].
  intros [Hs Hall]%StronglySorted_inv. constructor; [by apply IH|].
  clear IH Hs. induction Hl as [|b y l1 l2 Hby _ IH]; [constructor|].
  inversion Hall; subst. constructor; [by eapply HR|by apply IH].
Qed.

Lemma related_functional {A B} (P : A -> B -> Prop) (l : list A)
    (k1 k2 : list B) :
  (forall a x y, P a x -> P a y -> x = y) ->
  Forall2 P l k1 -> Forall2 P l k2 -> k1 = k2.
Proof.
  intros HP H1. revert k2. induction H1 as [|a x l k1 Hax _ IH];
    intros k2 H2; inversion H2; subst; [done|].
  f_equal; [by eapply HP|by apply IH].
Qed.

Lemma reverse_sorted {A} (R : relation A) (l : list A) :
  StronglySorted R l -> StronglySorted (flip R) (reverse l).
Proof.
  induction 1 as [|x l _ IH Hx]; [constructor|].
  rewrite reverse_cons. apply StronglySorted_app. split_and!.
  - intros y ? Hy ->%list_elem_of_singleton. rewrite elem_of_reverse in Hy.
    unfold flip. by eapply Forall_forall in Hx.
  - done.
  - repeat constructor.
Qed.

Lemma iloc_cons {A} (obj : list A) (i : nat) (indexer : list nat) :
  iloc obj (i :: indexer)
  = match obj !! i with
    | Some x => x :: iloc obj indexer
    | None => iloc obj indexer
    end.
Proof. reflexivity. Qed.

Lemma iloc_idx (indexer : list nat) (n : nat) :
  Forall (fun i => i < n) indexer -> iloc (seq 0 n) indexer = indexer.
Proof.
  induction 1 as [|i indexer Hi _ IH]; [done|].
  rewrite iloc_cons, lookup_seq_lt by done. simpl. by rewrite IH.
Qed.


(** The position for which the reversed index stands. *)
Lemma reverse_idx_lookup (n i x : nat) :
  reverse (seq 0 n) !! i = Some x -> i < n /\ x = n - S i.
Proof.
  intros Hx. pose proof (lookup_lt_Some _ _ _ Hx) as Hi.
  rewrite length_reverse, length_seq in Hi.
  rewrite reverse_lookup, length_seq in Hx by (by rewrite length_seq).
  apply lookup_seq in Hx. lia.
Qed.

Lemma reverse_lookup_total (items : list nat) (i : nat) :
  i < length items ->
  reverse items !!! i = items !!! (length items - S i).
Proof.
  intros Hi. by rewrite !list_lookup_total_alt, reverse_lookup.
Qed.

(** [nargsort] returns every position once, in the order asked for. *)
Lemma nargsort_spec (items : list nat) (asc : bool) :
  nargsort items asc ≡ₚ seq 0 (length items)
  /\ if asc then ascending (fun i => items !!! i) (nargsort items asc)
     else descending (fun i => items !!! i) (nargsort items asc).
Proof.
  unfold nargsort. destruct asc.
  - destruct (argsort_spec items) as [Hp Hs].
    rewrite iloc_idx by (by apply positions_in_range). done.
  - destruct (argsort_spec (reverse items)) as [Hp Hs].
    rewrite length_reverse in Hp.
    set (n := length items) in *. set (ix := argsort (reverse items)) in *.
    assert (Hrel : Forall2 (fun i x => reverse (seq 0 n) !! i = Some x) ix
                     (iloc (reverse (seq 0 n)) ix)).
    { apply iloc_related. rewrite length_reverse, length_seq.
      by apply positions_in_range. }
    split.
    + rewrite reverse_Permutation. rewrite iloc_Permutation.
      * apply reverse_Permutation.
      * by rewrite length_reverse, length_seq.
    + unfold descending.
      apply (reverse_sorted (fun a b => items !!! a <= items !!! b)).
      eapply related_sorted; [|exact Hrel|exact Hs].
      intros a b x y [Ha ->]%reverse_idx_lookup [Hb ->]%reverse_idx_lookup.
      simpl. by rewrite !reverse_lookup_total by done.
Qed.

Lemma fmap_lookup_total_key {A} (by_ : A -> nat) (obj : list A) (i : nat)
    (x : A) :
  obj !! i = Some x -> map by_ obj !!! i = by_ x.
Proof.
  intros Hx. apply list_lookup_total_correct.
  change (map by_ obj) with (by_ <$> obj). by rewrite list_lookup_fmap, Hx.
Qed.

(** [sort_values] returns the entries of the object, each once, in the
    order asked for. *)
Lemma sort_values_spec {A} (by_ : A -> nat) (asc : bool) (obj : list A) :
  sort_values by_ asc obj ≡ₚ obj
  /\ if asc then ascending by_ (sort_values by_ asc obj)
     else descending by_ (sort_values by_ asc obj).
Proof.
  unfold sort_values.
  destruct (nargsort_spec (map by_ obj) asc) as [Hp Hs].
  rewrite length_map in Hp.
  assert (Hrel : Forall2 (fun i x => obj !! i = Some x)
                   (nargsort (map by_ obj) asc)
                   (iloc obj (nargsort (map by_ obj) asc))).
  { apply iloc_related. by apply positions_in_range. }
  split; [by apply iloc_Permutation|].
  destruct asc.
  - eapply related_sorted; [|exact Hrel|exact Hs].
    intros a b x y Ha Hb. simpl.
    by rewrite (fmap_lookup_total_key _ _ _ _ Ha),
               (fmap_lookup_total_key _ _ _ _ Hb).
  - eapply related_sorted; [|exact Hrel|exact Hs].
    intros a b x y Ha Hb. simpl.
    by rewrite (fmap_lookup_total_key _ _ _ _ Ha),
               (fmap_lookup_total_key _ _ _ _ Hb).
Qed.

(** *** Whatever routine sorts *)

Lemma argsort_sorts : sorts argsort.
Proof. intros a. apply argsort_spec. Qed.





Section AnyBuildFacts.

Variable routine : list nat -> list nat.
Hypothesis routine_sorts : sorts routine.

Lemma nargsort_with_spec (items : list nat) (asc : bool) :
  nargsort_with routine items asc ≡ₚ seq 0 (length items)
  /\ if asc
     then ascending (fun i => items !!! i) (nargsort_with routine items asc)
     else descending (fun i => items !!! i) (nargsort_with routine items asc).
Proof.
  unfold nargsort_with. destruct asc.
  - destruct (routine_sorts items) as [Hp Hs].
    rewrite iloc_idx by (by apply positions_in_range). done.
  - destruct (routine_sorts (reverse items)) as [Hp Hs].
    rewrite length_reverse in Hp.
    set (n := length items) in *. set (ix := routine (reverse items)) in *.
    assert (Hrel : Forall2 (fun i x => reverse (seq 0 n) !! i = Some x) ix
                     (iloc (reverse (seq 0 n)) ix)).
    { apply iloc_related. rewrite length_reverse, length_seq.
      by apply positions_in_range. }
    split.
    + rewrite reverse_Permutation. rewrite iloc_Permutation.
      * apply reverse_Permutation.
      * by rewrite length_reverse, length_seq.
    + unfold descending.
      apply (reverse_sorted (fun a b => items !!! a <= items !!! b)).
      eapply related_sorted; [|exact Hrel|exact Hs].
      intros a b x y [Ha ->]%reverse_idx_lookup [Hb ->]%reverse_idx_lookup.
      simpl. by rewrite !reverse_lookup_total by done.
Qed.

(** Whatever routine sorts, [sort_values] returns the entries of the
    object, each once, in the order asked for. *)
Lemma sort_values_with_spec {A} (by_ : A -> nat) (asc : bool)
    (obj : list A) :
  sort_values_with routine by_ asc obj ≡ₚ obj
  /\ if asc then ascending by_ (sort_values_with routine by_ asc obj)
     else descending by_ (sort_values_with routine by_ asc obj).
Proof.
  unfold sort_values_with.
  destruct (nargsort_with_spec (map by_ obj) asc) as [Hp Hs].
  rewrite length_map in Hp.
  assert (Hrel : Forall2 (fun i x => obj !! i = Some x)
                   (nargsort_with routine (map by_ obj) asc)
                   (iloc obj (nargsort_with routine (map by_ obj) asc))).
  { apply iloc_related. by apply positions_in_range. }
  split; [by apply iloc_Permutation|].
  destruct asc.
  - eapply related_sorted; [|exact Hrel|exact Hs].
    intros a b x y Ha Hb. simpl.
    by rewrite (fmap_lookup_total_key _ _ _ _ Ha),
               (fmap_lookup_total_key _ _ _ _ Hb).
  - eapply related_sorted; [|exact Hrel|exact Hs].
    intros a b x y Ha Hb. simpl.
    by rewrite (fmap_lookup_total_key _ _ _ _ Ha),
               (fmap_lookup_total_key _ _ _ _ Hb).
Qed.

End AnyBuildFacts.


(** ** The sorted listing *)

Lemma ascending_map {A B} (f : A -> B) (g : B -> nat) (h : A -> nat)
    (l : list A) :
  Forall (fun x => g (f x) = h x) l ->
  ascending h l -> ascending g (map f l).
Proof.
  intros Hall Hs. unfold ascending in *.
  induction Hs as [|x l _ IH Hx]; [constructor|].
  inversion Hall as [|? ? Hgx Hall']; subst. simpl.
  constructor; [by apply IH|].
  apply Forall_fmap. rewrite Forall_forall in Hx, Hall'.
  apply Forall_forall. intros y Hy. simpl.
  rewrite Hgx, (Hall' y Hy). by apply Hx.
Qed.

Lemma shown_assign_name_length (data : DataFrame) (lengths : list nat) :
  length lengths = length data ->
  map shown (assign_name_length data lengths) = map shown data.
Proof.
  revert lengths. induction data as [|r data IH]; intros [|n lengths];
    simpl; try done.
  intros [= Hlen]. f_equal. by apply IH.
Qed.

(** After the assignment the sort key of a row is the length of the name
    the table shows for it. *)
Lemma assigned_key (data : DataFrame) (lengths : list nat) :
  Forall2 (fun r n => name r <> None
                      /\ option_map String.length (name r) = Some n)
          data lengths ->
  Forall (fun r => shown_length (shown r) = by_name_length r)
         (assign_name_length data lengths).
Proof.
  induction 1 as [|r n data lengths [_ Hn] _ IH]; simpl; [constructor|].
  constructor; [|done]. unfold shown_length, by_name_length. simpl.
  destruct (name r); simpl in *; congruence.
Qed.

(** With the portable routine the sorting calls are the ones embedded
    first. *)
Lemma sort_values_portable {A} (by_ : A -> nat) (asc : bool) (obj : list A) :
  sort_values_with argsort by_ asc obj = sort_values by_ asc obj.
Proof. reflexivity. Qed.

Lemma value_counts_portable (values : list cell) :
  value_counts_with argsort values = value_counts values.
Proof. reflexivity. Qed.

Lemma nlargest_portable (n : nat) (obj : counts) :
  nlargest_with argsort n obj = nlargest n obj.
Proof. reflexivity. Qed.

Lemma display_sorted_pubs_portable (data : DataFrame) :
  display_sorted_pubs_with argsort data = display_sorted_pubs data.
Proof. reflexivity. Qed.

(** C2 (as the code has it). On a frame that is not empty and has a name in
    every row, [display_sorted_pubs] shows the rows of the frame, each
    once, in ascending order of the length of the name, whatever routine
    sorts.  The order among rows whose names have the same length is the
    routine's and is not settled by the code. *)
Theorem display_sorted_pubs_ascending (routine : list nat -> list nat)
    (data : DataFrame) :
  sorts routine ->
  data <> [] -> Forall (fun r => name r <> None) data ->
  exists table : list Shown,
    snd (display_sorted_pubs_with routine data) = Ok (st_dataframe table)
    /\ table ≡ₚ map shown data
    /\ ascending shown_length table.
Proof.
  intros Hsorts Hne Hnames. unfold display_sorted_pubs_with.
  destruct data as [|r0 data0] eqn:Hd; [done|]. simpl negb. cbv iota.
  rewrite <- Hd in *. clear Hd Hne r0 data0.
  pose proof (apply_len_spec data) as Hspec.
  destruct (apply len (map name data)) as [lengths|e].
  2:{ destruct Hspec as [_ Hex]. apply Exists_exists in Hex as (r & Hr & Hn).
      by eapply Forall_forall in Hnames. }
  simpl. eexists. split; [done|].
  pose proof (Forall2_length _ _ _ Hspec) as Hlen.
  pose proof (assigned_key _ _ Hspec) as Hkey.
  set (data' := assign_name_length data lengths) in *.
  destruct (sort_values_with_spec routine Hsorts by_name_length true data')
    as [Hp Hs].
  assert (Hkey' : Forall (fun r => shown_length (shown r) = by_name_length r)
                         (sort_values_with routine by_name_length true data'))
    by (by rewrite Hp).
  rewrite <- (shown_assign_name_length data lengths) by done.
  fold data'. split.
  - by rewrite Hp.
  - by eapply ascending_map.
Qed.

Lemma display_sorted_pubs_ascending_witness :
  exists table : list Shown,
    snd (display_sorted_pubs_with argsort two_of_eight)
    = Ok (st_dataframe table)
    /\ table ≡ₚ map shown two_of_eight
    /\ ascending shown_length table.
Proof.
  apply (display_sorted_pubs_ascending argsort two_of_eight).
  - exact argsort_sorts.
  - discriminate.
  - unfold two_of_eight. repeat constructor; discriminate.
Defined.

(** C2 (as the specification has it) fails where the portable routine
    sorts: it meets numpy's contract, the eighteen pubs all have names of
    five characters, and the table does not show them in the order of the
    frame. *)
Lemma display_sorted_pubs_reorders_equal_lengths :
  sorts argsort
  /\ exists table : list Shown,
       snd (display_sorted_pubs_with argsort eighteen)
       = Ok (st_dataframe table)
       /\ map shown_length table = replicate 18 5
       /\ map s_index table
          = [0; 15; 14; 13; 12; 11; 10; 9; 8; 7; 6; 5; 4; 3; 2; 1; 16; 17]
       /\ ~ keeps_order_of_equal_lengths (map shown eighteen) table.
Proof.
  split; [exact argsort_sorts|]. eexists. split_and!.
  - vm_compute. reflexivity.
  - vm_compute. reflexivity.
  - vm_compute. reflexivity.
  - intros Hkeep. specialize (Hkeep 5). vm_compute in Hkeep. discriminate.
Qed.

(** ** Counting by region *)

Lemma bump_sum (k : string) (table : counts) :
  sum_counts (bump k table) = S (sum_counts table).
Proof.
  unfold sum_counts. induction table as [|[k' c] table IH]; [done|].
  simpl. destruct (String.eqb k k'); simpl; [done|]. rewrite IH. lia.
Qed.

Lemma bump_keys (k : string) (table : counts) :
  map fst (bump k table)
  = if decide (k ∈ map fst table) then map fst table
    else map fst table ++ [k].
Proof.
  induction table as [|[k' c] table IH]; [done|]. simpl.
  destruct (String.eqb_spec k k') as [->|Hne]; simpl.
  - rewrite decide_True; [done|]. apply elem_of_cons. by left.
  - rewrite IH. destruct (decide (k ∈ map fst table)) as [Hin|Hout].
    + rewrite decide_True; [done|]. apply elem_of_cons. by right.
    + rewrite decide_False; [done|]. intros [?|?]%elem_of_cons; done.
Qed.

Lemma bump_positive (k : string) (table : counts) :
  Forall (fun kc => 1 <= snd kc) table ->
  Forall (fun kc => 1 <= snd kc) (bump k table).
Proof.
  induction 1 as [|[k' c] table Hc Ht IH]; simpl.
  - repeat constructor.
  - destruct (String.eqb k k'); constructor; simpl in *; done || lia.
Qed.

Lemma bump_NoDup (k : string) (table : counts) :
  NoDup (map fst table) -> NoDup (map fst (bump k table)).
Proof.
  intros Hnd. rewrite bump_keys. case_decide as Hin; [done|].
  apply NoDup_app. split_and!; [done| |apply NoDup_singleton].
  intros x Hx ->%list_elem_of_singleton. done.
Qed.

(** The table the counting builds, from any table it starts with. *)
Lemma value_count_fold (values : list cell) (table : counts) :
  let r := fold_left (fun table c =>
                        match c with Some k => bump k table | None => table end)
                     values table in
  sum_counts r = sum_counts table + length (omap id values)
  /\ (NoDup (map fst table) -> NoDup (map fst r))
  /\ (Forall (fun kc => 1 <= snd kc) table ->
      Forall (fun kc => 1 <= snd kc) r)
  /\ forall k, k ∈ map fst r <-> k ∈ map fst table \/ k ∈ omap id values.
Proof.
  revert table. induction values as [|[k|] values IH]; intros table;
    cbn [fold_left].
  - simpl. split_and!; [lia|done|done|]. intros k. rewrite elem_of_nil. tauto.
  - change (omap id (Some k :: values)) with (k :: omap id values).
    destruct (IH (bump k table)) as (Hsum & Hnd & Hpos & Hin).
    cbn [length]. split_and!.
    + rewrite Hsum, bump_sum. lia.
    + intros ?. by apply Hnd, bump_NoDup.
    + intros ?. by apply Hpos, bump_positive.
    + intros k'. rewrite Hin, bump_keys, elem_of_cons.
      case_decide as Hk; [|rewrite elem_of_app, list_elem_of_singleton].
      * split; [tauto|]. intros [?|[->|?]]; tauto.
      * tauto.
  - apply IH.
Qed.

Lemma value_count_spec (values : list cell) :
  sum_counts (value_count values) = length (omap id values)
  /\ NoDup (map fst (value_count values))
  /\ Forall (fun kc => 1 <= snd kc) (value_count values)
  /\ forall k, k ∈ map fst (value_count values) <-> k ∈ omap id values.
Proof.
  destruct (value_count_fold values []) as (Hsum & Hnd & Hpos & Hin).
  split_and!; [done|apply Hnd; constructor|apply Hpos; constructor|].
  intros k. rewrite Hin. simpl. rewrite elem_of_nil. tauto.
Qed.

Lemma value_counts_spec (values : list cell) :
  value_counts values ≡ₚ value_count values
  /\ descending snd (value_counts values).
Proof. apply (sort_values_spec snd false). Qed.

Lemma omap_id_regions (data : DataFrame) :
  omap id (map local_authority data) = with_region data.
Proof.
  unfold with_region. induction data as [|r data IH]; [done|].
  simpl. unfold omap in IH. rewrite IH. by destruct (local_authority r).
Qed.

Lemma with_region_all (data : DataFrame) :
  Forall (fun r => local_authority r <> None) data ->
  length (with_region data) = length data.
Proof.
  unfold with_region. induction 1 as [|r data Hr _ IH]; [done|].
  simpl. unfold omap in IH. destruct (local_authority r); [|done]. simpl.
  by rewrite IH.
Qed.

(** There are as many rows in the count as distinct regions in the
    frame. *)
Lemma value_counts_length (data : DataFrame) :
  length (value_counts (map local_authority data))
  = distinct_region_count data.
Proof.
  destruct (value_counts_spec (map local_authority data)) as [Hp _].
  destruct (value_count_spec (map local_authority data))
    as (_ & Hnd & _ & Hin).
  rewrite Hp. unfold distinct_region_count.
  rewrite <- (length_map fst). apply Permutation_length.
  apply NoDup_Permutation; [done|apply NoDup_remove_dups|].
  intros k. by rewrite Hin, omap_id_regions, elem_of_remove_dups.
Qed.

(** C7 (as the code has it). The counts [display_bar_chart] charts sum to
    the number of rows that have a region, which is the number of rows when
    no region is missing; every region is counted once, and no row of the
    chart has the count 0.  Of an empty frame nothing is counted and the
    page shows a message instead of a chart. *)
Theorem value_counts_totals (data : DataFrame) :
  let chart_data := value_counts (map local_authority data) in
  sum_counts chart_data = length (with_region data)
  /\ (Forall (fun r => local_authority r <> None) data ->
      sum_counts chart_data = length data)
  /\ NoDup (map fst chart_data)
  /\ Forall (fun kc => 1 <= snd kc) chart_data
  /\ display_bar_chart data
     = match data with
       | [] => st_write "No chart data available."
       | _ :: _ =>
           st_plotly_chart "Number of Pubs by Local Authority" chart_data
       end
  /\ value_counts (map local_authority []) = [].
Proof.
  intros chart_data.
  destruct (value_counts_spec (map local_authority data)) as [Hp _].
  destruct (value_count_spec (map local_authority data))
    as (Hsum & Hnd & Hpos & _).
  fold chart_data in Hp.
  assert (Htotal : sum_counts chart_data = length (with_region data)).
  { unfold sum_counts. rewrite Hp. fold (sum_counts (value_count (map local_authority data))).
    by rewrite Hsum, omap_id_regions. }
  split_and!.
  - done.
  - intros Hall. by rewrite Htotal, with_region_all.
  - by rewrite Hp.
  - by rewrite Hp.
  - by destruct data.
  - reflexivity.
Qed.

Lemma value_counts_totals_witness :
  sum_counts (value_counts (map local_authority scenario)) = 3.
Proof.
  apply (value_counts_totals scenario).
  unfold scenario. repeat constructor; discriminate.
Defined.

(** C7 (as the specification has it) fails: the two pubs have no region,
    nothing is counted for them and the counts sum to 0. *)
Lemma value_counts_drops_missing_region :
  display_bar_chart no_region
  = st_plotly_chart "Number of Pubs by Local Authority" []
  /\ sum_counts (value_counts (map local_authority no_region))
     <> length no_region.
Proof. split; [reflexivity|discriminate]. Qed.

(** ** Ranking *)

Lemma stable_sort_sorted {A} (f : A -> Z) (l : list A) :
  ascendingZ f l -> stable_sort f l = l.
Proof.
  induction 1 as [|x l _ IH Hx]; [done|].
  unfold stable_sort in *. simpl. rewrite IH.
  destruct Hx as [|y l Hy _]; [done|]. simpl.
  by rewrite (proj2 (Z.leb_le _ _) Hy).
Qed.

Lemma zip_seq_related (a : list Z) (s : nat) :
  Forall2 (fun y p => snd p = y) a (zip (seq s (length a)) a).
Proof.
  revert s. induction a as [|y a IH]; intros s; simpl; constructor;
    [done|apply IH].
Qed.

Lemma argsort_stable_sorted (a : list Z) :
  ascendingZ id a -> argsort_stable a = seq 0 (length a).
Proof.
  intros Hs. unfold argsort_stable. rewrite stable_sort_sorted.
  - change (map fst ?l) with (fst <$> l). apply fst_zip.
    by rewrite length_seq.
  - unfold ascendingZ in *.
    eapply (related_sorted (fun y p => snd p = y));
      [|apply zip_seq_related|exact Hs].
    by intros ? ? ? ? <- <-.
Qed.

Lemma boolean_index_none {A} (rows : list A) (mask : list bool) :
  Forall (fun b => b = false) mask -> boolean_index rows mask = [].
Proof.
  intros Hall. revert rows. induction Hall as [|b mask -> _ IH];
    intros [|r rows]; simpl; auto.
Qed.

(** On ascending values the entries not above a bound are the first ones. *)
Lemma nonzero_sorted (arr : list Z) (bound : Z) (s : nat) :
  ascendingZ id arr ->
  exists m : nat,
    m <= length arr
    /\ boolean_index (seq s (length arr)) (map (fun x => (x <=? bound)%Z) arr)
       = seq s m
    /\ forall i x, arr !! i = Some x -> (x <= bound)%Z -> i < m.
Proof.
  intros Hs. revert s. induction Hs as [|x arr _ IH Hx]; intros s.
  { exists 0. split_and!; [done|done|]. by intros i x. }
  simpl. destruct (Z.leb_spec x bound) as [Hle|Hgt].
  - destruct (IH (S s)) as (m & Hm & Heq & Hin). exists (S m). split_and!.
    + lia.
    + simpl. by rewrite Heq.
    + intros [|i] y; simpl; [lia|]. intros Hy Hyb.
      specialize (Hin i y Hy Hyb). lia.
  - assert (Hall : Forall (fun y => (bound < y)%Z) arr).
    { eapply Forall_impl; [exact Hx|]. unfold id. simpl. lia. }
    exists 0. split_and!.
    + lia.
    + apply boolean_index_none. apply Forall_fmap.
      eapply Forall_impl; [exact Hall|]. simpl. intros y Hy.
      apply Z.leb_gt. done.
    + intros [|i] y; simpl.
      * intros [= <-]. lia.
      * intros Hy Hyb. exfalso.
        assert (bound < y)%Z; [|lia].
        rewrite Forall_forall in Hall. apply Hall.
        apply list_elem_of_lookup. by exists i.
Qed.

Lemma ascendingZ_take {A} (f : A -> Z) (l : list A) (n : nat) :
  ascendingZ f l -> ascendingZ f (take n l).
Proof.
  unfold ascendingZ. rewrite <- (take_drop n l) at 1.
  by intros (_ & ? & _)%StronglySorted_app.
Qed.

Lemma negated_counts_ascending (obj : counts) :
  descending snd obj ->
  ascendingZ id (map (fun kc => (- Z.of_nat (snd kc) - 1)%Z) obj).
Proof.
  unfold descending, ascendingZ.
  induction 1 as [|x l _ IH Hx]; simpl; constructor; [done|].
  apply Forall_fmap. eapply Forall_impl; [exact Hx|]. simpl. unfold id. lia.
Qed.

(** When the object is in descending order and longer than [n], the [n]
    largest are its first [n] entries. *)
Lemma nlargest_descending_long (n : nat) (obj : counts) :
  descending snd obj -> 0 < n < length obj ->
  nlargest n obj = take n obj.
Proof.
  intros Hd [Hn0 Hn]. unfold nlargest.
  destruct (Nat.eqb_spec n 0) as [|_]; [lia|].
  destruct (Nat.leb_spec (length obj) n) as [|_]; [lia|].
  set (arr := map (fun kc => (- Z.of_nat (snd kc) - 1)%Z) obj).
  assert (Harr : ascendingZ id arr) by (by apply negated_counts_ascending).
  assert (Hlen : length arr = length obj) by (subst arr; apply length_map).
  rewrite Hlen. rewrite (Nat.min_l n (length obj)) by lia.
  assert (Hkth : kth_smallest arr (n - 1) = arr !!! (n - 1)).
  { unfold kth_smallest. by rewrite stable_sort_sorted. }
  rewrite Hkth. unfold nonzero. rewrite length_map.
  destruct (nonzero_sorted arr (arr !!! (n - 1)) 0 Harr)
    as (m & Hm & -> & Hin).
  assert (Hnm : n <= m).
  { specialize (Hin (n - 1) (arr !!! (n - 1))).
    rewrite list_lookup_lookup_total_lt in Hin by lia.
    specialize (Hin eq_refl ltac:(lia)). lia. }
  rewrite iloc_seq.
  rewrite argsort_stable_sorted by (by apply ascendingZ_take).
  rewrite length_take, (Nat.min_l m (length arr)) by lia.
  rewrite iloc_seq, (take_ge (seq 0 m)) by (by rewrite length_seq).
  rewrite take_seq, (Nat.min_l n m) by lia.
  rewrite iloc_seq, take_take. f_equal. lia.
Qed.

Lemma nlargest_short (n : nat) (obj : counts) :
  0 < n -> length obj <= n ->
  nlargest n obj = sort_values snd false obj.
Proof.
  intros Hn Hlen. unfold nlargest.
  destruct (Nat.eqb_spec n 0) as [|_]; [lia|].
  destruct (Nat.leb_spec (length obj) n) as [_|]; [|lia].
  apply take_ge.
  destruct (sort_values_spec snd false obj) as [Hp _]. by rewrite Hp.
Qed.

(** C8. The [n] largest of the counts are at most [n] rows and at most as
    many as there are distinct regions, each of them one of the counts, and
    no region left out has a larger count than a region returned.
    [display_top_cities] charts the 10 largest. *)
Theorem nlargest_top (data : DataFrame) (n : nat) :
  let counted := value_counts (map local_authority data) in
  let top := nlargest n counted in
  length top <= n `min` distinct_region_count data
  /\ top ⊆ counted
  /\ (forall (region region' : string) (count count' : nat),
        (region, count) ∈ top -> (region', count') ∈ counted ->
        region' ∉ map fst top -> count' <= count)
  /\ display_top_cities data
     = match data with
       | [] => st_write "No chart data available."
       | _ :: _ =>
           st_plotly_chart "Top 10 Cities by Number of Pubs"
             (nlargest 10 counted)
       end.
Proof.
  intros counted top.
  destruct (value_counts_spec (map local_authority data)) as [_ Hd].
  pose proof (value_counts_length data) as Hlen.
  fold counted in Hd, Hlen. rewrite <- Hlen.
  assert (Hshow : display_top_cities data
                  = match data with
                    | [] => st_write "No chart data available."
                    | _ :: _ =>
                        st_plotly_chart "Top 10 Cities by Number of Pubs"
                          (nlargest 10 counted)
                    end) by (by destruct data).
  destruct (decide (n = 0)) as [->|Hn0].
  { assert (Htop : top = []) by done. rewrite Htop. split_and!.
    - simpl. lia.
    - by intros ? ?%elem_of_nil.
    - by intros ? ? ? ? ?%elem_of_nil.
    - done. }
  destruct (decide (length counted <= n)) as [Hshort|Hlong].
  - assert (Htop : top = sort_values snd false counted)
      by (apply nlargest_short; [lia|done]).
    destruct (sort_values_spec snd false counted) as [Hp _].
    rewrite <- Htop in Hp. split_and!.
    + rewrite Hp. lia.
    + intros x. by rewrite Hp.
    + intros region region' count count' _ Hin' Hout. exfalso.
      apply Hout. rewrite <- Hp in Hin'.
      change region' with (fst (region', count')).
      by apply list_elem_of_fmap_2.
    + done.
  - assert (Htop : top = take n counted)
      by (apply nlargest_descending_long; [done|lia]).
    split_and!.
    + rewrite Htop, length_take. lia.
    + rewrite Htop. intros x Hx. apply elem_of_take in Hx as (i & Hi & _).
      apply list_elem_of_lookup. by exists i.
    + intros region region' count count' Hin Hin' Hout. rewrite Htop in *.
      unfold descending in Hd. rewrite <- (take_drop n counted) in Hd, Hin'.
      apply StronglySorted_app in Hd as (Hcross & _ & _).
      apply elem_of_app in Hin' as [Hin'|Hin'].
      * exfalso. apply Hout. change region' with (fst (region', count')).
        by apply list_elem_of_fmap_2.
      * exact (Hcross _ _ Hin Hin').
    + done.
Qed.

Lemma nlargest_top_witness :
  ("Camden", 2) ∈ nlargest 1 (value_counts (map local_authority scenario))
  /\ ("Soho", 1) ∈ value_counts (map local_authority scenario)
  /\ 1 <= 2.
Proof.
  assert (Hin : ("Camden", 2)
                ∈ nlargest 1 (value_counts (map local_authority scenario)))
    by (vm_compute; apply elem_of_cons; by left).
  assert (Hin' : ("Soho", 1) ∈ value_counts (map local_authority scenario))
    by (vm_compute; apply elem_of_cons; right; apply elem_of_cons; by left).
  split_and!; [exact Hin|exact Hin'|].
  destruct (nlargest_top scenario 1) as (_ & _ & Hge & _).
  apply (Hge "Camden" "Soho" 2 1 Hin Hin').
  vm_compute. intros [Heq|Hnil]%elem_of_cons;
    [discriminate|by apply elem_of_nil in Hnil].
Defined.

(** *** Whatever routine sorts *)







(** * More of the program *)

(** ** The three criteria together *)

Lemma filter_filter_and {A} (p q : A -> bool) (l : list A) :
  List.filter q (List.filter p l) = List.filter (fun x => p x && q x) l.
Proof.
  induction l as [|x l IH]; [done|]. simpl.
  destruct (p x); simpl; [|done]. destruct (q x); by rewrite IH.
Qed.

Lemma filter_all {A} (l : list A) : List.filter (fun _ => true) l = l.
Proof. induction l as [|x l IH]; [done|]. simpl. by rewrite IH. Qed.

Lemma boolean_index_by {A B} (f : A -> B) (p : B -> bool) (rows : list A) :
  boolean_index rows (map p (map f rows)) = List.filter (fun r => p (f r)) rows.
Proof. by rewrite map_map, boolean_index_map. Qed.

Section CriteriaFacts.

Variable re_beyond : string -> option (string -> bool).

(** With a query the pattern compiler takes, the frame returned holds the
    rows that pass all three criteria. *)
Lemma apply_filters_passes (data : DataFrame) (authorities : list string)
    (name_query postal_code : string) (found : string -> bool) :
  (name_query <> "" ->
   re_search_ignorecase re_beyond (strip name_query) = Some found) ->
  apply_filters re_beyond data authorities name_query postal_code
  = Ok (List.filter (passes authorities name_query found postal_code) data).
Proof.
  intros Hfound. unfold apply_filters, passes, isin, series_eq.
  rewrite !boolean_index_by.
  assert (H1 : (if negb (empty authorities) && negb (str_in "All" authorities)
                then List.filter
                       (fun r => match local_authority r with
                                 | Some s => str_in s authorities
                                 | None => false
                                 end) data
                else data)
               = List.filter
                   (fun r => empty authorities || str_in "All" authorities
                             || match local_authority r with
                                | Some a => str_in a authorities
                                | None => false
                                end) data).
  { destruct (empty authorities); simpl; [by rewrite filter_all|].
    destruct (str_in "All" authorities); simpl; [by rewrite filter_all|done]. }
  rewrite H1. clear H1.
  destruct (String.eqb_spec name_query "") as [->|Hq]; simpl.
  - rewrite ?boolean_index_by.
    destruct (String.eqb postal_code "All"); simpl;
      rewrite ?filter_filter_and; f_equal; apply filter_ext; intros r;
      by rewrite ?andb_true_r.
  - unfold str_contains. rewrite (Hfound Hq). simpl.
    rewrite ?boolean_index_by.
    destruct (String.eqb postal_code "All"); simpl;
      rewrite ?filter_filter_and; f_equal; apply filter_ext; intros r;
      by rewrite ?andb_true_r, ?andb_assoc.
Qed.

(** With a query the pattern compiler rejects, nothing is returned. *)
Lemma apply_filters_rejected (data : DataFrame) (authorities : list string)
    (name_query postal_code : string) :
  name_query <> "" ->
  re_search_ignorecase re_beyond (strip name_query) = None ->
  apply_filters re_beyond data authorities name_query postal_code
  = Raise re_error.
Proof.
  intros Hq Hnone. unfold apply_filters.
  destruct (String.eqb_spec name_query "") as [|_]; [done|]. simpl.
  unfold str_contains. by rewrite Hnone.
Qed.

End CriteriaFacts.

Lemma filter_twice {A} (p : A -> bool) (l : list A) :
  List.filter p (List.filter p l) = List.filter p l.
Proof.
  rewrite filter_filter_and. apply filter_ext. intros x. by destruct (p x).
Qed.

Lemma filter_passed {A} (p : A -> bool) (l : list A) (x : A) :
  x ∈ List.filter p l -> x ∈ l /\ p x = true.
Proof. rewrite !list_elem_of_In. apply filter_In. Qed.

Section CriteriaTheorems.

Variable re_beyond : string -> option (string -> bool).

(** A frame was returned: the query was empty or stood for a test. *)
Lemma returned_found (data out : DataFrame) (authorities : list string)
    (name_query postal_code : string) :
  apply_filters re_beyond data authorities name_query postal_code = Ok out ->
  exists found : string -> bool,
    name_query <> "" ->
    re_search_ignorecase re_beyond (strip name_query) = Some found.
Proof.
  intros Hout.
  destruct (re_search_ignorecase re_beyond (strip name_query))
    as [found|] eqn:Hre; [by exists found|].
  exists (fun _ => true). intros Hq.
  by rewrite apply_filters_rejected in Hout.
Qed.

(** X1. Filtering a frame that [apply_filters] returned, by the criteria
    it was returned for, returns it again: a second pass drops nothing. *)
Theorem apply_filters_again (data out : DataFrame) (authorities : list string)
    (name_query postal_code : string) :
  apply_filters re_beyond data authorities name_query postal_code = Ok out ->
  apply_filters re_beyond out authorities name_query postal_code = Ok out.
Proof.
  intros Hout. destruct (returned_found _ _ _ _ _ Hout) as [found Hfound].
  rewrite (apply_filters_passes _ _ _ _ _ found Hfound) in Hout.
  injection Hout as <-.
  rewrite (apply_filters_passes _ _ _ _ _ found Hfound).
  by rewrite filter_twice.
Qed.

(** X2. The criteria do not depend on one another: narrowing by postal
    code first and by region and name afterwards, or by region first and by
    name and postal code afterwards, gives what one call with all three
    criteria gives, the exception for a query that is no pattern
    included. *)
Theorem apply_filters_in_steps (data : DataFrame) (authorities : list string)
    (name_query postal_code : string) :
  (try narrowed := apply_filters re_beyond data [] "" postal_code in
   apply_filters re_beyond narrowed authorities name_query "All")
  = apply_filters re_beyond data authorities name_query postal_code
  /\ (try narrowed := apply_filters re_beyond data authorities "" "All" in
      apply_filters re_beyond narrowed [] name_query postal_code)
     = apply_filters re_beyond data authorities name_query postal_code.
Proof.
  assert (Hno : forall f : string -> bool,
             "" <> "" -> re_search_ignorecase re_beyond (strip "") = Some f)
    by done.
  rewrite (apply_filters_passes _ data [] "" postal_code (fun _ => true))
    by done.
  rewrite (apply_filters_passes _ data authorities "" "All" (fun _ => true))
    by done.
  simpl bind.
  destruct (String.eqb_spec name_query "") as [->|Hq].
  - rewrite !(apply_filters_passes _ _ _ "" _ (fun _ => true)) by done.
    rewrite !filter_filter_and. split; f_equal; apply filter_ext; intros r;
      unfold passes; simpl; rewrite ?andb_true_r; [|done].
    apply andb_comm.
  - destruct (re_search_ignorecase re_beyond (strip name_query))
      as [found|] eqn:Hre.
    + rewrite !(apply_filters_passes _ _ _ name_query _ found) by done.
      rewrite !filter_filter_and. split; f_equal; apply filter_ext; intros r;
        unfold passes; simpl; rewrite ?andb_true_r.
      * apply andb_comm.
      * apply andb_assoc.
    + by rewrite !apply_filters_rejected.
Qed.

(** X3. After a query that is not empty every row returned has a name, so
    [display_sorted_pubs] never raises on the frame returned. *)
Theorem query_leaves_named (data out : DataFrame) (authorities : list string)
    (name_query postal_code : string) :
  name_query <> "" ->
  apply_filters re_beyond data authorities name_query postal_code = Ok out ->
  Forall (fun r => name r <> None) out
  /\ exists shown_ : rendered, snd (display_sorted_pubs out) = Ok shown_.
Proof.
  intros Hq Hout. destruct (returned_found _ _ _ _ _ Hout) as [found Hfound].
  rewrite (apply_filters_passes _ _ _ _ _ found Hfound) in Hout.
  injection Hout as <-.
  set (out := List.filter _ data).
  assert (Hnamed : Forall (fun r => name r <> None) out).
  { apply Forall_forall. intros r [_ Hr]%filter_passed.
    unfold passes in Hr. apply andb_prop in Hr as [[_ Hr]%andb_prop _].
    destruct (String.eqb_spec name_query "") as [|_]; [done|].
    simpl in Hr. by destruct (name r). }
  split; [done|]. unfold display_sorted_pubs.
  destruct (empty out); simpl; [by eexists|].
  pose proof (apply_len_spec out) as Hspec.
  destruct (apply len (map name out)) as [lengths|e]; simpl; [by eexists|].
  destruct Hspec as [_ Hex]. apply Exists_exists in Hex as (r & Hr & Hn).
  by eapply Forall_forall in Hnamed.
Qed.

(** X4. With authorities selected, "All" not among them, the bar chart of
    the frame returned counts selected authorities only. *)
Theorem bar_chart_of_selected (data out : DataFrame)
    (authorities : list string) (name_query postal_code title : string)
    (chart_data : counts) (region : string) (count : nat) :
  authorities <> [] -> str_in "All" authorities = false ->
  apply_filters re_beyond data authorities name_query postal_code = Ok out ->
  display_bar_chart out = st_plotly_chart title chart_data ->
  (region, count) ∈ chart_data ->
  str_in region authorities = true.
Proof.
  intros Hne Hall Hout Hchart Hin.
  destruct (returned_found _ _ _ _ _ Hout) as [found Hfound].
  rewrite (apply_filters_passes _ _ _ _ _ found Hfound) in Hout.
  injection Hout as <-. set (out := List.filter _ data) in *.
  unfold display_bar_chart in Hchart.
  destruct (empty out); [discriminate|]. simpl in Hchart.
  injection Hchart as _ <-.
  destruct (value_counts_spec (map local_authority out)) as [Hp _].
  destruct (value_count_spec (map local_authority out)) as (_ & _ & _ & Hkeys).
  assert (Hk : region ∈ map fst (value_count (map local_authority out))).
  { rewrite <- Hp. change region with (fst (region, count)).
    by apply list_elem_of_fmap_2. }
  apply Hkeys in Hk. rewrite omap_id_regions in Hk.
  unfold with_region in Hk. apply list_elem_of_omap in Hk as (r & Hr & Hreg).
  apply filter_passed in Hr as [_ Hr]. unfold passes in Hr.
  apply andb_prop in Hr as [[Hr _]%andb_prop _].
  rewrite Hreg, Hall, orb_false_r in Hr. destruct authorities; [done|].
  done.
Qed.

End CriteriaTheorems.

Lemma apply_filters_again_witness :
  apply_filters rejects_the_rest
    [pub 0 (Some "Red Lion") (Some "Camden") (Some "N1")]
    ["Camden"] "red" "N1"
  = Ok [pub 0 (Some "Red Lion") (Some "Camden") (Some "N1")].
Proof.
  apply (apply_filters_again rejects_the_rest scenario
           [pub 0 (Some "Red Lion") (Some "Camden") (Some "N1")]
           ["Camden"] "red" "N1").
  vm_compute. reflexivity.
Defined.

Lemma query_leaves_named_witness :
  Forall (fun r => name r <> None) scenario
  /\ exists shown_ : rendered, snd (display_sorted_pubs scenario) = Ok shown_.
Proof.
  apply (query_leaves_named rejects_the_rest scenario_nameless scenario []
           " " "All"); [discriminate|vm_compute; reflexivity].
Defined.

Lemma bar_chart_of_selected_witness :
  str_in "Camden" ["Camden"] = true.
Proof.
  apply (bar_chart_of_selected rejects_the_rest scenario (take 2 scenario)
           ["Camden"] "" "All" "Number of Pubs by Local Authority"
           [("Camden", 2)] "Camden" 2).
  - discriminate.
  - reflexivity.
  - vm_compute. reflexivity.
  - vm_compute. reflexivity.
  - apply elem_of_cons. by left.
Defined.

(** ** The counts of the charts *)

Lemma count_of_bump (k k' : string) (table : counts) :
  count_of k' (bump k table)
  = count_of k' table + (if String.eqb k' k then 1 else 0).
Proof.
  induction table as [|[k0 c0] table IH]; [done|]. cbn [bump].
  destruct (String.eqb_spec k k0) as [->|Hk]; cbn [count_of].
  - destruct (String.eqb k' k0); lia.
  - destruct (String.eqb_spec k' k0) as [->|Hk']; [|done].
    destruct (String.eqb_spec k0 k) as [->|_]; [done|lia].
Qed.

Lemma occurrences_cons (k : string) (x : cell) (values : list cell) :
  occurrences k (x :: values)
  = (if decide (x = Some k) then 1 else 0) + occurrences k values.
Proof.
  unfold occurrences. rewrite filter_cons.
  destruct (decide (x = Some k)) as [Hx|Hx].
  - by rewrite decide_True.
  - by rewrite decide_False.
Qed.

Lemma count_of_fold (k : string) (values : list cell) (table : counts) :
  count_of k (fold_left (fun table c =>
                           match c with
                           | Some k => bump k table
                           | None => table
                           end) values table)
  = count_of k table + occurrences k values.
Proof.
  revert table. induction values as [|x values IH]; intros table.
  - cbn [fold_left]. unfold occurrences. simpl. lia.
  - cbn [fold_left]. rewrite IH, occurrences_cons. destruct x as [k0|].
    + rewrite count_of_bump.
      destruct (String.eqb_spec k k0) as [->|Hk].
      * rewrite decide_True by done. lia.
      * rewrite decide_False by congruence. lia.
    + rewrite decide_False by done. lia.
Qed.

Lemma count_of_elem (k : string) (c : nat) (table : counts) :
  NoDup (map fst table) -> Forall (fun kc => 1 <= snd kc) table ->
  (k, c) ∈ table <-> 0 < c /\ c = count_of k table.
Proof.
  induction table as [|[k0 c0] table IH]; intros Hnd Hpos.
  - cbn [count_of]. split; [by intros ?%elem_of_nil|lia].
  - cbn [map fst] in Hnd. apply NoDup_cons in Hnd as [Hk0 Hnd].
    apply Forall_cons in Hpos as [Hc0 Hpos]. simpl in Hc0.
    rewrite elem_of_cons. cbn [count_of].
    destruct (String.eqb_spec k k0) as [->|Hk].
    + split.
      * intros [[= ->]|Hin]; [lia|].
        destruct Hk0. by apply (list_elem_of_fmap_2 fst _ (k0, c)).
      * intros [_ ->]. by left.
    + rewrite <- (IH Hnd Hpos). split; [|by right].
      intros [[= -> _]|Hin]; done.
Qed.

(** X5. A chart has a bar for a region exactly when the region occurs in
    the column, and the bar's count is the number of rows that have the
    region. *)
Theorem value_counts_occurrences (values : list cell) (region : string)
    (count : nat) :
  (region, count) ∈ value_counts values
  <-> 0 < count /\ count = occurrences region values.
Proof.
  destruct (value_counts_spec values) as [Hp _]. rewrite Hp.
  destruct (value_count_spec values) as (_ & Hnd & Hpos & _).
  rewrite (count_of_elem _ _ _ Hnd Hpos). unfold value_count.
  rewrite count_of_fold. cbn [count_of]. by rewrite Nat.add_0_l.
Qed.

(** ** The saved list over many runs *)

Lemma saved_pubs_page_saved_list (session_state : SessionState)
    (pub_name : cell) (button : bool) :
  saved_list (fst (saved_pubs_page session_state pub_name button))
  = save (saved_list session_state) button pub_name.
Proof. done. Qed.

(** X6. After any series of runs of the Saved Pubs page the saved list is
    the list before, followed by the names selected in the runs in which
    the button was pressed and the option was not "None": nothing is
    removed or reordered, and a name saved twice is listed twice. *)
Theorem runs_saved_list (session_state : SessionState)
    (inputs : list (cell * bool)) :
  saved_list (runs session_state inputs)
  = (saved_list session_state ++ map fst (List.filter saves inputs))%list.
Proof.
  revert session_state.
  induction inputs as [|[pub_name button] inputs IH]; intros session_state.
  - cbn. by rewrite app_nil_r.
  - unfold runs in *. cbn [fold_left List.filter]. rewrite IH.
    rewrite saved_pubs_page_saved_list. unfold save, saves. cbn [fst snd].
    destruct (button && negb (bool_decide (pub_name = Some "None")));
      [|done].
    cbn [map fst]. by rewrite <- app_assoc.
Qed.

(** X7. A pub whose name is the text "None" cannot be saved: the option
    "None" stands for no selection, so the saved list never holds it unless
    it did before the page first ran. *)
Theorem runs_never_save_None (session_state : SessionState)
    (inputs : list (cell * bool)) :
  Some "None" ∉ saved_list session_state ->
  Some "None" ∉ saved_list (runs session_state inputs).
Proof.
  revert session_state.
  induction inputs as [|[pub_name button] inputs IH]; intros session_state Hno;
    [done|].
  unfold runs in *. cbn [fold_left]. apply IH.
  rewrite saved_pubs_page_saved_list. unfold save. cbn [fst snd].
  destruct button; cbn [andb]; [|done].
  case_bool_decide as Hname; cbn [negb]; [done|].
  rewrite elem_of_app, list_elem_of_singleton. intros [Hin|Heq]; [done|].
  by destruct Hname.
Qed.

Lemma runs_never_save_None_witness :
  Some "None" ∉ saved_list
    (runs (mkSession None)
       [(Some "Ox", true); (Some "None", true); (Some "Swan", false)]).
Proof.
  apply (runs_never_save_None (mkSession None)
           [(Some "Ox", true); (Some "None", true); (Some "Swan", false)]).
  cbn. apply not_elem_of_nil.
Defined.

(** ** The frame [load_data] returns *)

Lemma load_row_spec (parse_number : string -> option Q) (i : nat)
    (row : SheetRow) (r : Row) :
  load_row parse_number i row = Some r <->
  has_coordinates parse_number row = true
  /\ index r = i
  /\ fsa_id r = r_fsa_id row /\ name r = r_name row
  /\ address r = r_address row /\ postcode r = r_postcode row
  /\ easting r = r_easting row /\ northing r = r_northing row
  /\ to_numeric parse_number (r_latitude row) = Some (latitude r)
  /\ to_numeric parse_number (r_longitude row) = Some (longitude r)
  /\ local_authority r = r_local_authority row
  /\ name_length r = None.
Proof.
  unfold load_row, has_coordinates.
  destruct (to_numeric parse_number (r_latitude row)) as [la|];
    [|by split; [|intros []]].
  destruct (to_numeric parse_number (r_longitude row)) as [lo|];
    [|by split; [|intros []]].
  split.
  - intros [= <-]. by cbn.
  - destruct r. cbn.
    intros (_ & -> & -> & -> & -> & -> & -> & -> & [= ->] & [= ->] & -> & ->).
    done.
Qed.

Lemma load_from (parse_number : string -> option Q) (s : nat)
    (sheet : list SheetRow) :
  let data := omap (fun ir => load_row parse_number (fst ir) (snd ir))
                   (zip (seq s (length sheet)) sheet) in
  StronglySorted lt (map index data)
  /\ forall r : Row,
       r ∈ data <->
       exists row : SheetRow,
         s <= index r /\ sheet !! (index r - s) = Some row
         /\ load_row parse_number (index r) row = Some r.
Proof.
  revert s. induction sheet as [|row0 sheet IH]; intros s data.
  { split; [constructor|]. intros r. split; [by intros ?%elem_of_nil|].
    by intros (row & _ & ? & _). }
  specialize (IH (S s)). cbv zeta in IH. destruct IH as [IHs IHr].
  subst data. cbn [length seq zip zip_with omap list_omap fst snd].
  set (rest := omap _ (zip (seq (S s) (length sheet)) sheet)) in *.
  assert (Hrest : forall r, r ∈ rest -> S s <= index r).
  { intros r Hr. apply IHr in Hr as (row & Hle & _). done. }
  assert (Hlater : forall r,
             r ∈ rest <->
             exists row, s <= index r
                         /\ (row0 :: sheet) !! (index r - s) = Some row
                         /\ load_row parse_number (index r) row = Some r
                         /\ index r <> s).
  { intros r. rewrite IHr. split.
    - intros (row & Hle & Hrow & Hload). exists row.
      split_and!; [lia| |done|lia].
      apply lookup_cons_Some. right. split; [lia|].
      by replace (index r - s - 1) with (index r - S s) by lia.
    - intros (row & Hle & Hrow & Hload & Hne). exists row.
      split_and!; [lia| |done].
      apply lookup_cons_Some in Hrow as [[Hz _]|[_ Hrow]]; [lia|].
      by replace (index r - S s) with (index r - s - 1) by lia. }
  destruct (load_row parse_number s row0) as [r0|] eqn:Hload0.
  - pose proof Hload0 as (_ & Hi0 & _)%load_row_spec. split.
    + cbn [map]. constructor; [done|]. apply Forall_fmap, Forall_forall.
      intros r Hr%Hrest. simpl. lia.
    + intros r. rewrite elem_of_cons, Hlater. split.
      * intros [->|(row & ? & ? & ? & _)]; [|by exists row].
        exists row0. rewrite Hi0, Nat.sub_diag. by split_and!.
      * intros (row & Hle & Hrow & Hload).
        destruct (decide (index r = s)) as [Hs|Hs]; [|right; by exists row].
        left. rewrite Hs, Nat.sub_diag in Hrow. injection Hrow as <-.
        rewrite Hs in Hload. congruence.
  - split; [done|]. intros r. rewrite Hlater. split.
    + intros (row & ? & ? & ? & _). by exists row.
    + intros (row & Hle & Hrow & Hload). exists row. split_and!; try done.
      intros Hs. rewrite Hs, Nat.sub_diag in Hrow. injection Hrow as <-.
      rewrite Hs in Hload. congruence.
Qed.

Lemma load_data_elem (parse_number : string -> option Q)
    (sheet : list SheetRow) (r : Row) :
  r ∈ load_data parse_number sheet <->
  exists row : SheetRow,
    sheet !! index r = Some row
    /\ load_row parse_number (index r) row = Some r.
Proof.
  unfold load_data.
  destruct (load_from parse_number 0 sheet) as [_ Hr]. rewrite Hr.
  rewrite Nat.sub_0_r. split.
  - intros (row & _ & ? & ?). by exists row.
  - intros (row & ? & ?). exists row. split_and!; [lia|done|done].
Qed.

Lemma load_data_ascending (parse_number : string -> option Q)
    (sheet : list SheetRow) :
  StronglySorted lt (map index (load_data parse_number sheet)).
Proof. apply (load_from parse_number 0 sheet). Qed.

(** X8. The labels of the frame [load_data] returns are the positions, in
    the sheet, of the rows that have a number in both coordinate columns,
    in ascending order: the rows kept keep their order and no two of them
    share a label. *)
Theorem load_data_labels (parse_number : string -> option Q)
    (sheet : list SheetRow) :
  StronglySorted lt (map index (load_data parse_number sheet))
  /\ forall i : nat,
       i ∈ map index (load_data parse_number sheet) <->
       exists row : SheetRow,
         sheet !! i = Some row /\ has_coordinates parse_number row = true.
Proof.
  split; [apply load_data_ascending|]. intros i.
  rewrite list_elem_of_fmap. split.
  - intros (r & -> & (row & Hrow & Hload)%load_data_elem).
    exists row. split; [done|]. by apply load_row_spec in Hload as [? _].
  - intros (row & Hrow & Hnum). unfold has_coordinates in Hnum.
    destruct (to_numeric parse_number (r_latitude row)) as [la|] eqn:Hla;
      [|done].
    destruct (to_numeric parse_number (r_longitude row)) as [lo|] eqn:Hlo;
      [|done].
    assert (Hload : load_row parse_number i row
                    = Some (mkRow i (r_fsa_id row) (r_name row)
                              (r_address row) (r_postcode row)
                              (r_easting row) (r_northing row) la lo
                              (r_local_authority row) None))
      by (unfold load_row; by rewrite Hla, Hlo).
    set (r := mkRow _ _ _ _ _ _ _ _ _ _ _) in Hload. exists r.
    split; [done|]. apply load_data_elem. exists row. by split.
Qed.

(** X9. A row of the frame [load_data] returns holds what the sheet holds
    at the position its label names, the coordinates as numbers, and has no
    [name_length] yet. *)
Theorem load_data_row_of_sheet (parse_number : string -> option Q)
    (sheet : list SheetRow) (r : Row) :
  r ∈ load_data parse_number sheet ->
  exists row : SheetRow,
    sheet !! index r = Some row
    /\ fsa_id r = r_fsa_id row /\ name r = r_name row
    /\ address r = r_address row /\ postcode r = r_postcode row
    /\ easting r = r_easting row /\ northing r = r_northing row
    /\ to_numeric parse_number (r_latitude row) = Some (latitude r)
    /\ to_numeric parse_number (r_longitude row) = Some (longitude r)
    /\ local_authority r = r_local_authority row
    /\ name_length r = None.
Proof.
  intros (row & Hrow & Hload)%load_data_elem. exists row.
  split; [done|]. by apply load_row_spec in Hload as (_ & _ & ?).
Qed.

Lemma load_data_row_of_sheet_witness :
  exists row : SheetRow,
    sheet4 !! 2 = Some row /\ r_name row = Some "The Crown".
Proof.
  destruct (load_data_row_of_sheet (fun _ => None) sheet4
              (mkRow 2 3 (Some "The Crown") (Some "3 High Street")
                 (Some "W1") 0 0 (515 # 10) (1 # 10) (Some "Soho") None))
    as (row & Hrow & _ & Hname & _).
  - apply (list_elem_of_lookup_2 _ 1). reflexivity.
  - exists row. split; [exact Hrow|]. symmetry. exact Hname.
Defined.

(** ** From the sheet to the table *)

Lemma filter_sublist {A} (p : A -> bool) (l : list A) :
  List.filter p l `sublist_of` l.
Proof.
  induction l as [|x l IH]; [done|]. simpl.
  destruct (p x); [by apply sublist_skip|by apply sublist_cons].
Qed.

Lemma ascending_labels_NoDup (l : list nat) : StronglySorted lt l -> NoDup l.
Proof.
  induction 1 as [|x l _ IH Hx]; constructor; [|done].
  intros Hin. rewrite Forall_forall in Hx. specialize (Hx x Hin). lia.
Qed.

Lemma display_sorted_pubs_table (data : DataFrame) (table : list Shown) :
  snd (display_sorted_pubs data) = Ok (st_dataframe table) ->
  table ≡ₚ map shown data.
Proof.
  unfold display_sorted_pubs. destruct (empty data); simpl; [done|].
  pose proof (apply_len_spec data) as Hspec.
  destruct (apply len (map name data)) as [lengths|e]; simpl; [|done].
  intros [= <-]. apply Forall2_length in Hspec.
  rewrite <- (shown_assign_name_length data lengths) by done.
  apply fmap_Permutation, sort_values_spec.
Qed.

(** X10. Every row of the table the home page shows is a row of the sheet
    that has both coordinates, under the label of its position in the
    sheet, and no two rows of the table share a label: filtering and
    sorting neither relabel nor repeat a row. *)
Theorem home_table_of_sheet (parse_number : string -> option Q)
    (re_beyond : string -> option (string -> bool))
    (sheet : list SheetRow) (authorities : list string)
    (name_query postal_code : string) (out : DataFrame)
    (table : list Shown) :
  apply_filters re_beyond (load_data parse_number sheet) authorities
    name_query postal_code = Ok out ->
  snd (display_sorted_pubs out) = Ok (st_dataframe table) ->
  NoDup (map s_index table)
  /\ Forall (fun s =>
               exists row : SheetRow,
                 sheet !! s_index s = Some row
                 /\ has_coordinates parse_number row = true
                 /\ s_name s = r_name row /\ s_address s = r_address row
                 /\ s_postcode s = r_postcode row
                 /\ s_local_authority s = r_local_authority row) table.
Proof.
  intros Hout Htable.
  destruct (returned_found _ _ _ _ _ _ Hout) as [found Hfound].
  rewrite (apply_filters_passes _ _ _ _ _ found Hfound) in Hout.
  injection Hout as <-.
  set (data := load_data parse_number sheet) in *.
  set (out := List.filter _ data) in *.
  apply display_sorted_pubs_table in Htable. split.
  - rewrite Htable, map_map. change (NoDup (map index out)).
    apply (sublist_NoDup _ (map index data)).
    + apply ascending_labels_NoDup, load_data_ascending.
    + apply fmap_sublist, filter_sublist.
  - rewrite Htable. apply Forall_fmap, Forall_forall.
    intros r [Hr _]%filter_passed.
    apply load_data_elem in Hr as (row & Hrow & Hload).
    apply load_row_spec in Hload as (? & _ & _ & ? & ? & ? & _ & _ & _ & _ & ? & _).
    exists row. by split_and!.
Qed.

Lemma home_table_of_sheet_witness :
  NoDup (map s_index
           [ mkShown 0 (Some "Red Lion") (Some "1 High Street") (Some "N1")
               (Some "Camden");
             mkShown 2 (Some "The Crown") (Some "3 High Street") (Some "W1")
               (Some "Soho") ])
  /\ Forall (fun s =>
               exists row : SheetRow,
                 sheet4 !! s_index s = Some row
                 /\ has_coordinates (fun _ => None) row = true
                 /\ s_name s = r_name row /\ s_address s = r_address row
                 /\ s_postcode s = r_postcode row
                 /\ s_local_authority s = r_local_authority row)
       [ mkShown 0 (Some "Red Lion") (Some "1 High Street") (Some "N1")
           (Some "Camden");
         mkShown 2 (Some "The Crown") (Some "3 High Street") (Some "W1")
           (Some "Soho") ].
Proof.
  apply (home_table_of_sheet (fun _ => None) rejects_the_rest sheet4 []
           "o" "All" (load_data (fun _ => None) sheet4)
           [ mkShown 0 (Some "Red Lion") (Some "1 High Street") (Some "N1")
               (Some "Camden");
             mkShown 2 (Some "The Crown") (Some "3 High Street") (Some "W1")
               (Some "Soho") ]); vm_compute; reflexivity.
Defined.

(** ** The options of the sidebar *)

Lemma str_lt_lt (a b : string) :
  str_lt a b = true <-> OrderedTypeEx.String_as_OT.lt a b.
Proof.
  rewrite <- OrderedTypeEx.String_as_OT.cmp_lt.
  unfold str_lt, String.ltb, OrderedTypeEx.String_as_OT.cmp.
  by destruct (String.compare a b).
Qed.

Lemma str_lt_trans (a b c : string) :
  str_lt a b = true -> str_lt b c = true -> str_lt a c = true.
Proof.
  rewrite !str_lt_lt. apply OrderedTypeEx.String_as_OT.lt_trans.
Qed.

Lemma str_lt_total (a b : string) :
  str_lt a b = false -> a <> b -> str_lt b a = true.
Proof.
  unfold str_lt, String.ltb. rewrite (String.compare_antisym b a).
  destruct (String.compare a b) eqn:Hc; try done.
  intros _ Hne. by apply String.compare_eq_iff in Hc.
Qed.

Lemma sorted_insert_Permutation (x : string) (l : list string) :
  sorted_insert x l ≡ₚ x :: l.
Proof.
  induction l as [|y l IH]; [done|]. cbn [sorted_insert].
  destruct (str_lt y x); [|done]. rewrite IH. apply Permutation_swap.
Qed.

Lemma sorted_insert_ascending (x : string) (l : list string) :
  x ∉ l -> strictly_ascending l -> strictly_ascending (sorted_insert x l).
Proof.
  unfold strictly_ascending. intros Hx Hs.
  induction Hs as [|y l Hs IH Hy].
  { cbn. by repeat constructor. }
  apply not_elem_of_cons in Hx as [Hxy Hx]. cbn [sorted_insert].
  destruct (str_lt y x) eqn:Hyx.
  - constructor; [by apply IH|].
    rewrite sorted_insert_Permutation. by constructor.
  - apply str_lt_total in Hyx; [|done].
    constructor; [by constructor|]. constructor; [done|].
    eapply Forall_impl; [exact Hy|]. intros z Hz. simpl in *.
    by eapply str_lt_trans.
Qed.

Lemma sort_texts (l : list string) :
  foldr sorted_insert [] l ≡ₚ l
  /\ (NoDup l -> strictly_ascending (foldr sorted_insert [] l)).
Proof.
  induction l as [|x l [IHp IHs]]; [by split; [|constructor]|].
  cbn [foldr]. split.
  - by rewrite sorted_insert_Permutation, IHp.
  - intros [Hx Hnd]%NoDup_cons. apply sorted_insert_ascending; [|by apply IHs].
    by rewrite IHp.
Qed.

Lemma present_texts (values : list cell) :
  Forall (fun x => x <> None) values -> map Some (omap id values) = values.
Proof.
  induction 1 as [|[s|] values Hx _ IH]; [done| |done].
  cbn. f_equal. exact IH.
Qed.

Lemma sorted_present (values : list cell) :
  Forall (fun x => x <> None) values ->
  sorted values = Ok (map Some (foldr sorted_insert [] (omap id values))).
Proof.
  intros Hall. pose proof (present_texts values Hall) as Htexts.
  destruct values as [|x [|y values]]; [done| |].
  - destruct x; [done|]. by apply Forall_cons in Hall as [? _].
  - unfold sorted.
    replace (forallb (fun x => bool_decide (x <> None)) (x :: y :: values))
      with true; [done|].
    symmetry. apply forallb_forall. intros z Hz%list_elem_of_In.
    apply bool_decide_eq_true. by eapply Forall_forall in Hall.
Qed.

Lemma sorted_Permutation (values out : list cell) :
  sorted values = Ok out -> out ≡ₚ values.
Proof.
  destruct (decide (Forall (fun x => x <> None) values)) as [Hall|Hsome].
  - rewrite sorted_present by done. intros [= <-].
    rewrite <- (present_texts values Hall) at 2.
    apply fmap_Permutation, sort_texts.
  - destruct values as [|x [|y values]]; try by intros [= <-].
    unfold sorted.
    destruct (forallb (fun x => bool_decide (x <> None)) (x :: y :: values))
      eqn:Hpresent.
    { destruct Hsome. apply Forall_forall. intros z Hz%list_elem_of_In.
      rewrite forallb_forall in Hpresent.
      by apply Hpresent, bool_decide_eq_true in Hz. }
    destruct (forallb (fun x => bool_decide (x = None)) (x :: y :: values));
      [by intros [= <-]|done].
Qed.

Lemma sorted_mixed (values : list cell) (s : string) :
  None ∈ values -> Some s ∈ values -> sorted values = Raise TypeError.
Proof.
  intros Hnone Hsome.
  destruct values as [|x [|y values]].
  - by apply elem_of_nil in Hnone.
  - apply list_elem_of_singleton in Hnone, Hsome. congruence.
  - unfold sorted.
    destruct (forallb (fun x => bool_decide (x <> None)) (x :: y :: values))
      eqn:Hpresent.
    { rewrite forallb_forall in Hpresent.
      apply list_elem_of_In, Hpresent, bool_decide_eq_true in Hnone. done. }
    destruct (forallb (fun x => bool_decide (x = None)) (x :: y :: values))
      eqn:Hmissing; [|done].
    rewrite forallb_forall in Hmissing.
    apply list_elem_of_In, Hmissing, bool_decide_eq_true in Hsome. done.
Qed.

Lemma unique_elem (x : cell) (values : list cell) :
  x ∈ unique values <-> x ∈ values.
Proof.
  induction values as [|y values IH]; [done|]. cbn [unique].
  rewrite !elem_of_cons, list_elem_of_filter, IH.
  destruct (decide (x = y)) as [Hxy|Hxy]; split.
  - by left.
  - by left.
  - intros [?|[_ ?]]; [done|by right].
  - intros [?|?]; [done|by right].
Qed.

Lemma unique_NoDup (values : list cell) : NoDup (unique values).
Proof.
  induction values as [|y values IH]; [constructor|]. cbn [unique].
  constructor; [|by apply NoDup_filter].
  rewrite list_elem_of_filter. by intros [? _].
Qed.

Lemma texts_NoDup (values : list cell) :
  NoDup values -> NoDup (omap id values).
Proof.
  induction 1 as [|x values Hx _ IH]; [constructor|].
  destruct x as [s|]; [|done]. cbn. constructor; [|done].
  intros (y & Hy & Heq)%list_elem_of_omap. simpl in Heq. by subst y.
Qed.

(** The options made of a column in which no cell is missing: its texts,
    each once, in ascending order. *)
Lemma options_of_column (values : list cell) :
  Forall (fun x => x <> None) values ->
  exists texts : list string,
    sorted (unique values) = Ok (map Some texts)
    /\ strictly_ascending texts
    /\ forall s : string, s ∈ texts <-> Some s ∈ values.
Proof.
  intros Hall.
  assert (Hu : Forall (fun x => x <> None) (unique values)).
  { apply Forall_forall. intros x Hx. rewrite unique_elem in Hx.
    by eapply Forall_forall in Hall. }
  exists (foldr sorted_insert [] (omap id (unique values))).
  destruct (sort_texts (omap id (unique values))) as [Hp Hs].
  split_and!.
  - by apply sorted_present.
  - apply Hs, texts_NoDup, unique_NoDup.
  - intros s. rewrite Hp, list_elem_of_omap. setoid_rewrite unique_elem.
    split; [|intros Hs'; by exists (Some s)].
    intros (x & Hx & Heq). simpl in Heq. by subst x.
Qed.

Lemma dropna_spec (values : list cell) :
  Forall (fun x => x <> None) (dropna values)
  /\ forall s : string, Some s ∈ dropna values <-> Some s ∈ values.
Proof.
  unfold dropna. split.
  - apply Forall_forall. by intros x [? _]%list_elem_of_filter.
  - intros s. rewrite list_elem_of_filter. split; [by intros [_ ?]|by split].
Qed.

Lemma column_elem {A} (f : Row -> A) (data : DataFrame) (x : A) :
  x ∈ map f data <-> exists r : Row, r ∈ data /\ f r = x.
Proof.
  rewrite list_elem_of_fmap. split; intros (r & ? & ?); by exists r.
Qed.

(** X11. The postal codes offered are "All", then the postal codes of the
    frame, each once, in ascending order; rows without a postal code add
    nothing, and making the options never raises. *)
Theorem postal_code_options_spec (data : DataFrame) :
  exists codes : list string,
    postal_code_options data = Ok (Some "All" :: map Some codes)
    /\ strictly_ascending codes
    /\ forall c : string,
         c ∈ codes <-> exists r : Row, r ∈ data /\ postcode r = Some c.
Proof.
  destruct (dropna_spec (map postcode data)) as [Hall Hin].
  destruct (options_of_column _ Hall) as (codes & Hsorted & Hasc & Hcodes).
  exists codes. unfold postal_code_options. rewrite Hsorted.
  split_and!; [done|done|]. intros c.
  by rewrite Hcodes, Hin, column_elem.
Qed.

(** X12. When every row has a region, the authorities offered are "All",
    then the regions of the frame, each once, in ascending order. *)
Theorem authority_options_spec (data : DataFrame) :
  Forall (fun r => local_authority r <> None) data ->
  exists regions : list string,
    authority_options data = Ok (Some "All" :: map Some regions)
    /\ strictly_ascending regions
    /\ forall a : string,
         a ∈ regions <-> exists r : Row, r ∈ data /\ local_authority r = Some a.
Proof.
  intros Hall.
  assert (Hcol : Forall (fun x => x <> None) (map local_authority data))
    by by apply Forall_fmap.
  destruct (options_of_column _ Hcol) as (regions & Hsorted & Hasc & Hin).
  exists regions. unfold authority_options. rewrite Hsorted.
  split_and!; [done|done|]. intros a. by rewrite Hin, column_elem.
Qed.

Lemma authority_options_spec_witness :
  exists regions : list string,
    authority_options scenario = Ok (Some "All" :: map Some regions)
    /\ strictly_ascending regions
    /\ forall a : string,
         a ∈ regions
         <-> exists r : Row, r ∈ scenario /\ local_authority r = Some a.
Proof.
  apply (authority_options_spec scenario). by repeat constructor.
Defined.

(** X13. When one row has a region and another has none, making the
    authority options raises [TypeError]: [sorted] compares a text with a
    missing cell. *)
Theorem authority_options_mixed (data : DataFrame) (r1 r2 : Row) :
  r1 ∈ data -> r2 ∈ data ->
  local_authority r1 = None -> local_authority r2 <> None ->
  authority_options data = Raise TypeError.
Proof.
  intros Hr1 Hr2 Hnone Hsome. unfold authority_options.
  destruct (local_authority r2) as [a|] eqn:Hr2a; [|done].
  rewrite (sorted_mixed _ a); [done| |].
  - apply unique_elem, column_elem. by exists r1.
  - apply unique_elem, column_elem. by exists r2.
Qed.

Lemma authority_options_mixed_witness :
  authority_options
    [pub 0 (Some "Ox") None (Some "N1");
     pub 1 (Some "Swan") (Some "Soho") (Some "W1")]
  = Raise TypeError.
Proof.
  apply (authority_options_mixed _
           (pub 0 (Some "Ox") None (Some "N1"))
           (pub 1 (Some "Swan") (Some "Soho") (Some "W1"))).
  - apply elem_of_cons. by left.
  - apply elem_of_cons. right. apply elem_of_cons. by left.
  - reflexivity.
  - discriminate.
Defined.

Lemma str_in_elem (x : string) (xs : list string) :
  str_in x xs = true <-> x ∈ xs.
Proof.
  unfold str_in. rewrite existsb_exists. split.
  - intros (y & Hy & ->%String.eqb_eq). by apply list_elem_of_In.
  - intros Hx. exists x. split; [by apply list_elem_of_In|].
    apply String.eqb_refl.
Qed.

Lemma sorted_unique_elem (values out : list cell) (x : cell) :
  sorted (unique values) = Ok out -> x ∈ out <-> x ∈ values.
Proof.
  intros Hp%sorted_Permutation. by rewrite Hp, unique_elem.
Qed.

Lemma filter_found {A} (p : A -> bool) (l : list A) (x : A) :
  x ∈ l -> p x = true -> List.filter p l <> [].
Proof.
  intros Hx Hp Hnil.
  assert (Hin : In x (List.filter p l))
    by (apply filter_In; split; [by apply list_elem_of_In|done]).
  by rewrite Hnil in Hin.
Qed.

(** X14. A postal code offered in the sidebar, chosen with no other
    criterion, finds at least one pub, and only pubs of that postal
    code. *)
Theorem offered_postal_code_finds_pub
    (re_beyond : string -> option (string -> bool)) (data : DataFrame)
    (options : list cell) (code : string) :
  postal_code_options data = Ok options ->
  Some code ∈ options -> code <> "All" ->
  exists out : DataFrame,
    apply_filters re_beyond data [] "" code = Ok out
    /\ out <> []
    /\ Forall (fun r => postcode r = Some code) out.
Proof.
  intros Hoptions Hin Hcode. unfold postal_code_options in Hoptions.
  destruct (sorted (unique (dropna (map postcode data)))) as [codes|e]
    eqn:Hsorted; [|done].
  injection Hoptions as <-.
  apply elem_of_cons in Hin as [[= ->]|Hin]; [done|].
  rewrite (sorted_unique_elem _ _ _ Hsorted) in Hin.
  apply dropna_spec, column_elem in Hin as (r & Hr & Hpc).
  rewrite (apply_filters_passes _ _ _ _ _ (fun _ => true)) by done.
  eexists. split; [done|].
  apply String.eqb_neq in Hcode. split.
  - apply (filter_found _ _ r Hr). unfold passes.
    rewrite Hpc, Hcode, (String.eqb_refl code). reflexivity.
  - apply Forall_forall. intros r' [_ Hr']%filter_passed.
    unfold passes in Hr'. apply andb_prop in Hr' as [_ Hr'].
    rewrite Hcode in Hr'. cbn in Hr'.
    destruct (postcode r') as [p|]; [|done].
    by apply String.eqb_eq in Hr' as ->.
Qed.

Lemma offered_postal_code_finds_pub_witness :
  exists out : DataFrame,
    apply_filters rejects_the_rest scenario [] "" "W1" = Ok out
    /\ out <> []
    /\ Forall (fun r => postcode r = Some "W1") out.
Proof.
  apply (offered_postal_code_finds_pub rejects_the_rest scenario
           [Some "All"; Some "N1"; Some "W1"] "W1").
  - vm_compute. reflexivity.
  - apply elem_of_cons. right. apply elem_of_cons. right.
    apply elem_of_cons. by left.
  - discriminate.
Defined.

(** X15. Authorities offered in the sidebar, chosen without "All" and
    with no other criterion, find at least one pub, and only pubs of the
    regions chosen. *)
Theorem offered_authorities_find_pub
    (re_beyond : string -> option (string -> bool)) (data : DataFrame)
    (options : list cell) (authorities : list string) :
  authority_options data = Ok options ->
  authorities <> [] -> str_in "All" authorities = false ->
  Forall (fun a => Some a ∈ options) authorities ->
  exists out : DataFrame,
    apply_filters re_beyond data authorities "" "All" = Ok out
    /\ out <> []
    /\ Forall (fun r => exists a : string,
                          local_authority r = Some a /\ a ∈ authorities) out.
Proof.
  intros Hoptions Hne Hall Hoffered. unfold authority_options in Hoptions.
  destruct (sorted (unique (map local_authority data))) as [regions|e]
    eqn:Hsorted; [|done].
  injection Hoptions as <-.
  rewrite (apply_filters_passes _ _ _ _ _ (fun _ => true)) by done.
  eexists. split; [done|].
  assert (Hpasses : forall r,
             passes authorities "" (fun _ => true) "All" r
             = match local_authority r with
               | Some a => str_in a authorities
               | None => false
               end).
  { intros r. unfold passes. rewrite Hall. destruct authorities; [done|].
    cbn. by rewrite !andb_true_r. }
  split.
  - destruct authorities as [|a authorities]; [done|].
    apply Forall_cons in Hoffered as [Ha _].
    apply elem_of_cons in Ha as [[= ->]|Ha].
    { cbn in Hall. done. }
    rewrite (sorted_unique_elem _ _ _ Hsorted) in Ha.
    apply column_elem in Ha as (r & Hr & Hregion).
    apply (filter_found _ _ r Hr). rewrite Hpasses, Hregion.
    apply str_in_elem, elem_of_cons. by left.
  - apply Forall_forall. intros r [_ Hr]%filter_passed.
    rewrite Hpasses in Hr. destruct (local_authority r) as [a|]; [|done].
    exists a. split; [done|]. by apply str_in_elem.
Qed.

Lemma offered_authorities_find_pub_witness :
  exists out : DataFrame,
    apply_filters rejects_the_rest scenario ["Soho"] "" "All" = Ok out
    /\ out <> []
    /\ Forall (fun r => exists a : string,
                          local_authority r = Some a /\ a ∈ ["Soho"]) out.
Proof.
  apply (offered_authorities_find_pub rejects_the_rest scenario
           [Some "All"; Some "Camden"; Some "Soho"] ["Soho"]).
  - vm_compute. reflexivity.
  - discriminate.
  - reflexivity.
  - constructor; [|constructor].
    apply elem_of_cons. right. apply elem_of_cons. right.
    apply elem_of_cons. by left.
Defined.

(** ** A run of the script *)

Lemma load_data_of_row (parse_number : string -> option Q)
    (sheet : list SheetRow) (row : SheetRow) :
  row ∈ sheet -> has_coordinates parse_number row = true ->
  exists r : Row,
    r ∈ load_data parse_number sheet
    /\ name r = r_name row /\ postcode r = r_postcode row
    /\ local_authority r = r_local_authority row.
Proof.
  intros [i Hrow]%list_elem_of_lookup Hnum. unfold has_coordinates in Hnum.
  destruct (to_numeric parse_number (r_latitude row)) as [la|] eqn:Hla;
    [|done].
  destruct (to_numeric parse_number (r_longitude row)) as [lo|] eqn:Hlo;
    [|done].
  assert (Hload : load_row parse_number i row
                  = Some (mkRow i (r_fsa_id row) (r_name row)
                            (r_address row) (r_postcode row)
                            (r_easting row) (r_northing row) la lo
                            (r_local_authority row) None))
    by (unfold load_row; by rewrite Hla, Hlo).
  set (r := mkRow _ _ _ _ _ _ _ _ _ _ _) in Hload. exists r.
  split; [|done]. apply load_data_elem. exists row. by split.
Qed.

Lemma postal_code_options_returns (data : DataFrame) :
  exists codes : list cell, postal_code_options data = Ok codes.
Proof.
  destruct (dropna_spec (map postcode data)) as [Hall _].
  destruct (options_of_column _ Hall) as (codes & Hsorted & _).
  unfold postal_code_options. rewrite Hsorted. by eexists.
Qed.

Lemma display_sorted_pubs_result (data : DataFrame) :
  match snd (display_sorted_pubs data) with
  | Ok _ => Forall (fun r => name r <> None) data
  | Raise e => e = TypeError /\ Exists (fun r => name r = None) data
  end.
Proof.
  unfold display_sorted_pubs. destruct data as [|r0 data0].
  { cbn. constructor. }
  set (data := r0 :: data0). change (empty data) with false. cbn [negb].
  pose proof (apply_len_spec data) as Hspec.
  destruct (apply len (map name data)) as [lengths|e]; cbn [snd]; [|done].
  eapply Forall2_Forall_l; [exact Hspec|].
  apply Forall_forall. by intros n _ r [? _].
Qed.

Lemma query_named (re_beyond : string -> option (string -> bool))
    (data out : DataFrame) (authorities : list string)
    (name_query postal_code : string) :
  name_query <> "" ->
  apply_filters re_beyond data authorities name_query postal_code = Ok out ->
  Forall (fun r => name r <> None) out.
Proof.
  intros Hq Hout.
  destruct (returned_found _ _ _ _ _ _ Hout) as [found Hfound].
  rewrite (apply_filters_passes _ _ _ _ _ found Hfound) in Hout.
  injection Hout as <-.
  apply Forall_forall. intros r [_ Hr]%filter_passed.
  unfold passes in Hr. apply andb_prop in Hr as [[_ Hr]%andb_prop _].
  apply String.eqb_neq in Hq. rewrite Hq in Hr.
  by destruct (name r).
Qed.

(** X16. When the sheet has, among its rows with coordinates, one without
    a region and one with a region, the script stops with [TypeError]
    while it makes the authority options: only the sidebar's title and the
    navigation are on the screen, whatever the page, and the session is
    untouched. *)
Theorem main_stops_on_missing_region (parse_number : string -> option Q)
    (re_beyond : string -> option (string -> bool)) (mean : list Q -> Q)
    (sheet : list SheetRow) (session_state : SessionState) (page : Page)
    (name_query : string) (authorities : list string) (postal_code : string)
    (pub_name : cell) (button : bool) (row1 row2 : SheetRow) :
  row1 ∈ sheet -> row2 ∈ sheet ->
  has_coordinates parse_number row1 = true ->
  has_coordinates parse_number row2 = true ->
  r_local_authority row1 = None -> r_local_authority row2 <> None ->
  main parse_number re_beyond mean sheet session_state page name_query
    authorities postal_code pub_name button
  = mkRun session_state
      [ sidebar_title "London Pub Explorer";
        sidebar_radio "Navigation" ["Home"; "Saved Pubs"] ]
      (Some TypeError).
Proof.
  intros Hrow1 Hrow2 Hnum1 Hnum2 Hnone Hsome.
  destruct (load_data_of_row _ _ _ Hrow1 Hnum1) as (r1 & Hr1 & _ & _ & Hla1).
  destruct (load_data_of_row _ _ _ Hrow2 Hnum2) as (r2 & Hr2 & _ & _ & Hla2).
  destruct (r_local_authority row2) as [a|] eqn:Ha; [|done].
  assert (Hraise : authority_options (load_data parse_number sheet)
                   = Raise TypeError).
  { unfold authority_options. rewrite (sorted_mixed _ a); [done| |].
    - apply unique_elem, column_elem. exists r1. by rewrite Hla1.
    - apply unique_elem, column_elem. by exists r2. }
  unfold main. cbv zeta. by rewrite Hraise.
Qed.

Lemma main_stops_on_missing_region_witness :
  main (fun _ => None) rejects_the_rest (fun _ => 0%Q)
    [ mkSheetRow 1 (Some "Ox") (Some "1 High Street") (Some "N1") 0 0
        (Number (515 # 10)) (Number (0 # 1)) None;
      mkSheetRow 2 (Some "Swan") (Some "2 High Street") (Some "W1") 0 0
        (Number (515 # 10)) (Number (1 # 10)) (Some "Soho") ]
    (mkSession None) SavedPubs "" [] "All" (Some "Ox") true
  = mkRun (mkSession None)
      [ sidebar_title "London Pub Explorer";
        sidebar_radio "Navigation" ["Home"; "Saved Pubs"] ]
      (Some TypeError).
Proof.
  apply (main_stops_on_missing_region _ _ _ _ _ _ _ _ _ _ _
           (mkSheetRow 1 (Some "Ox") (Some "1 High Street") (Some "N1") 0 0
              (Number (515 # 10)) (Number (0 # 1)) None)
           (mkSheetRow 2 (Some "Swan") (Some "2 High Street") (Some "W1") 0 0
              (Number (515 # 10)) (Number (1 # 10)) (Some "Soho"))).
  - apply elem_of_cons. by left.
  - apply elem_of_cons. right. apply elem_of_cons. by left.
  - reflexivity.
  - reflexivity.
  - reflexivity.
  - discriminate.
Defined.

Lemma open_group_not_plain (pat : string) :
  occurs "("%char pat = true -> parse_plain pat = None.
Proof.
  induction pat as [|c pat IH]; [done|]. cbn [occurs parse_plain].
  destruct (Ascii.eqb_spec "("%char c) as [<-|_]; [done|].
  intros Hpat%IH. rewrite Hpat.
  destruct (Ascii.eqb c dot); [done|]. by destruct (is_special c).
Qed.

Lemma unclosed_group_rejected (re_beyond : string -> option (string -> bool))
    (pat : string) :
  unclosed_group pat = true -> re_search_ignorecase re_beyond pat = None.
Proof.
  intros Hpat. unfold re_search_ignorecase. rewrite Hpat.
  unfold unclosed_group in Hpat.
  repeat apply andb_prop in Hpat as [Hpat _].
  by rewrite (open_group_not_plain pat Hpat).
Qed.

(** X17. A query that, trimmed, opens a group it never closes (and has no
    escape, character class or repeat count in it, and at most 100 open
    groups) stops the script with [re.error] in [apply_filters], on either
    page and whatever [re] does with other patterns: the sidebar is
    complete, nothing of the page is on the screen, and a pub selected with
    the button pressed is not saved. *)
Theorem main_rejected_query (parse_number : string -> option Q)
    (re_beyond : string -> option (string -> bool)) (mean : list Q -> Q)
    (sheet : list SheetRow) (session_state : SessionState) (page : Page)
    (name_query : string) (authorities : list string) (postal_code : string)
    (pub_name : cell) (button : bool) (regions codes : list cell) :
  authority_options (load_data parse_number sheet) = Ok regions ->
  postal_code_options (load_data parse_number sheet) = Ok codes ->
  unclosed_group (strip name_query) = true ->
  main parse_number re_beyond mean sheet session_state page name_query
    authorities postal_code pub_name button
  = mkRun session_state
      [ sidebar_title "London Pub Explorer";
        sidebar_radio "Navigation" ["Home"; "Saved Pubs"];
        sidebar_text_input "Search by Pub Name";
        sidebar_multiselect "Filter by Local Authority" regions;
        sidebar_selectbox "Filter by Postal Code" codes ]
      (Some re_error).
Proof.
  intros Hregions Hcodes Hopen. unfold main. cbv zeta.
  rewrite Hregions, Hcodes.
  assert (Hq : name_query <> "") by (by intros ->).
  by rewrite (apply_filters_rejected _ _ _ _ _ Hq
                (unclosed_group_rejected re_beyond _ Hopen)).
Qed.

Lemma main_rejected_query_witness :
  main (fun _ => None) (fun _ => Some (fun _ => true)) (fun _ => 0%Q) sheet4
    (mkSession None) SavedPubs " (red" [] "All" (Some "Red Lion") true
  = mkRun (mkSession None)
      [ sidebar_title "London Pub Explorer";
        sidebar_radio "Navigation" ["Home"; "Saved Pubs"];
        sidebar_text_input "Search by Pub Name";
        sidebar_multiselect "Filter by Local Authority"
          [Some "All"; Some "Camden"; Some "Soho"];
        sidebar_selectbox "Filter by Postal Code"
          [Some "All"; Some "N1"; Some "W1"] ]
      (Some re_error).
Proof.
  apply (main_rejected_query (fun _ => None) (fun _ => Some (fun _ => true))
           (fun _ => 0%Q) sheet4 (mkSession None) SavedPubs " (red" []
           "All" (Some "Red Lion") true).
  - vm_compute. reflexivity.
  - vm_compute. reflexivity.
  - vm_compute. reflexivity.
Defined.

(** X18. On the home page, once the sidebar is made and the filters have
    returned a frame, the run leaves the session as it was and ends without
    an exception exactly when every row of the frame has a name, which a
    query that is not empty makes sure of; otherwise it ends with
    [TypeError], after the map and both charts are on the screen.  The
    bar chart is of the rows returned, the top-cities chart of all the
    rows loaded. *)
Theorem main_home (parse_number : string -> option Q)
    (re_beyond : string -> option (string -> bool)) (mean : list Q -> Q)
    (sheet : list SheetRow) (session_state : SessionState)
    (name_query : string) (authorities : list string) (postal_code : string)
    (pub_name : cell) (button : bool) (regions : list cell)
    (out : DataFrame) (run : Run) :
  authority_options (load_data parse_number sheet) = Ok regions ->
  apply_filters re_beyond (load_data parse_number sheet) authorities
    name_query postal_code = Ok out ->
  main parse_number re_beyond mean sheet session_state Home name_query
    authorities postal_code pub_name button = run ->
  state run = session_state
  /\ (raised run = None <-> Forall (fun r => name r <> None) out)
  /\ (name_query <> "" -> raised run = None)
  /\ (raised run = None \/ raised run = Some TypeError)
  /\ create_pydeck_map mean out ∈ elements run
  /\ showing (display_bar_chart out) ∈ elements run
  /\ showing (display_top_cities (load_data parse_number sheet))
     ∈ elements run.
Proof.
  intros Hregions Hout <-.
  destruct (postal_code_options_returns (load_data parse_number sheet))
    as [codes Hcodes].
  unfold main. cbv zeta. rewrite Hregions, Hcodes, Hout. unfold home.
  pose proof (display_sorted_pubs_result out) as Hsort.
  assert (Hshown : forall (sidebar last : list element) (x : element),
             x ∈ [ st_title "Explore Pubs across London";
                   st_image "london.jpg" 700;
                   st_markdown welcome;
                   create_pydeck_map mean out;
                   showing (display_bar_chart out);
                   showing (display_top_cities
                              (load_data parse_number sheet)) ] ->
             x ∈ (sidebar
                  ++ ([ st_title "Explore Pubs across London";
                        st_image "london.jpg" 700;
                        st_markdown welcome;
                        create_pydeck_map mean out;
                        showing (display_bar_chart out);
                        showing (display_top_cities
                                   (load_data parse_number sheet)) ]
                      ++ last))%list).
  { intros sidebar last x Hx. apply elem_of_app. right.
    apply elem_of_app. by left. }
  destruct (snd (display_sorted_pubs out)) as [table|e];
    cbn [state raised elements].
  - split_and!; try done.
    + by left.
    + apply (Hshown _ [showing table]). do 3 apply list_elem_of_further.
      apply list_elem_of_here.
    + apply (Hshown _ [showing table]). do 4 apply list_elem_of_further.
      apply list_elem_of_here.
    + apply (Hshown _ [showing table]). do 5 apply list_elem_of_further.
      apply list_elem_of_here.
  - destruct Hsort as [-> Hex].
    assert (Hnot : ~ Forall (fun r => name r <> None) out).
    { intros Hall. apply Exists_exists in Hex as (r & Hr & Hn).
      by eapply Forall_forall in Hall. }
    split_and!; try done.
    + intros Hq. destruct Hnot. by eapply query_named.
    + by right.
    + rewrite <- (app_nil_r [_; _; _; _; _; _]). apply Hshown.
      do 3 apply list_elem_of_further. apply list_elem_of_here.
    + rewrite <- (app_nil_r [_; _; _; _; _; _]). apply Hshown.
      do 4 apply list_elem_of_further. apply list_elem_of_here.
    + rewrite <- (app_nil_r [_; _; _; _; _; _]). apply Hshown.
      do 5 apply list_elem_of_further. apply list_elem_of_here.
Qed.

Lemma main_home_witness :
  raised (main (fun _ => None) rejects_the_rest (fun _ => 0%Q) sheet4
            (mkSession None) Home "o" [] "All" None false)
  = None.
Proof.
  pose proof (main_home (fun _ => None) rejects_the_rest (fun _ => 0%Q)
                sheet4 (mkSession None) "o" [] "All" None false
                [Some "All"; Some "Camden"; Some "Soho"]
                (load_data (fun _ => None) sheet4)
                (main (fun _ => None) rejects_the_rest (fun _ => 0%Q) sheet4
                   (mkSession None) Home "o" [] "All" None false))
    as Hhome.
  destruct Hhome as (_ & _ & Hquery & _).
  - vm_compute. reflexivity.
  - vm_compute. reflexivity.
  - reflexivity.
  - apply Hquery. discriminate.
Defined.

(** X19. On the Saved Pubs page, once the sidebar is made and the filters
    have returned a frame, the run ends without an exception, rows without
    a name included; the options to save are "None" and the names of the
    rows returned, in the frame's order; and the saved list is the list
    before, with the option selected appended when the button was pressed
    and the option was not "None". *)
Theorem main_saved_pubs (parse_number : string -> option Q)
    (re_beyond : string -> option (string -> bool)) (mean : list Q -> Q)
    (sheet : list SheetRow) (session_state : SessionState)
    (name_query : string) (authorities : list string) (postal_code : string)
    (pub_name : cell) (button : bool) (regions : list cell)
    (out : DataFrame) (run : Run) :
  authority_options (load_data parse_number sheet) = Ok regions ->
  apply_filters re_beyond (load_data parse_number sheet) authorities
    name_query postal_code = Ok out ->
  main parse_number re_beyond mean sheet session_state SavedPubs name_query
    authorities postal_code pub_name button = run ->
  raised run = None
  /\ saved_pubs (state run)
     = Some (save (saved_list session_state) button pub_name)
  /\ st_selectbox "Select a Pub to Save" (Some "None" :: map name out)
     ∈ elements run.
Proof.
  intros Hregions Hout <-.
  destruct (postal_code_options_returns (load_data parse_number sheet))
    as [codes Hcodes].
  unfold main. cbv zeta. rewrite Hregions, Hcodes, Hout.
  unfold saved, saved_pubs_page. cbn [state raised elements].
  split_and!; [done|done|].
  apply elem_of_app. right. apply elem_of_app. left.
  apply list_elem_of_further, list_elem_of_here.
Qed.

Lemma main_saved_pubs_witness :
  saved_pubs
    (state (main (fun _ => None) rejects_the_rest (fun _ => 0%Q) sheet4
              (mkSession None) SavedPubs "" [] "All" (Some "Red Lion") true))
  = Some [Some "Red Lion"].
Proof.
  pose proof (main_saved_pubs (fun _ => None) rejects_the_rest
                (fun _ => 0%Q) sheet4 (mkSession None) "" [] "All"
                (Some "Red Lion") true
                [Some "All"; Some "Camden"; Some "Soho"]
                (load_data (fun _ => None) sheet4)
                (main (fun _ => None) rejects_the_rest (fun _ => 0%Q) sheet4
                   (mkSession None) SavedPubs "" [] "All" (Some "Red Lion")
                   true))
    as Hsaved.
  destruct Hsaved as (_ & Hlist & _).
  - vm_compute. reflexivity.
  - vm_compute. reflexivity.
  - reflexivity.
  - exact Hlist.
Defined.

(** X20. No run of the script takes a name off the saved list: the list
    before is the beginning of the list after, whatever the widgets return
    and whether or not the run ends with an exception; a run of the home
    page leaves the session as it was. *)
Theorem main_keeps_saved (parse_number : string -> option Q)
    (re_beyond : string -> option (string -> bool)) (mean : list Q -> Q)
    (sheet : list SheetRow) (session_state : SessionState) (page : Page)
    (name_query : string) (authorities : list string) (postal_code : string)
    (pub_name : cell) (button : bool) :
  saved_list session_state
    `prefix_of` saved_list
                  (state (main parse_number re_beyond mean sheet
                            session_state page name_query authorities
                            postal_code pub_name button))
  /\ state (main parse_number re_beyond mean sheet session_state Home
              name_query authorities postal_code pub_name button)
     = session_state.
Proof.
  unfold main. cbv zeta.
  destruct (authority_options (load_data parse_number sheet)) as [regions|e];
    [|done].
  destruct (postal_code_options (load_data parse_number sheet)) as [codes|e];
    [|done].
  destruct (apply_filters re_beyond (load_data parse_number sheet)
              authorities name_query postal_code) as [out|e]; [|done].
  split.
  - destruct page.
    + unfold home. by destruct (snd (display_sorted_pubs out)).
    + unfold saved, saved_pubs_page. cbn [state saved_list saved_pubs].
      fold (saved_list session_state). unfold save.
      destruct (button && negb (bool_decide (pub_name = Some "None")));
        [by eexists|done].
  - unfold home. by destruct (snd (display_sorted_pubs out)).
Qed.

(** ** The case of the query *)

Lemma lower_lower (c : ascii) : lower (lower c) = lower c.
Proof. destruct c as [[] [] [] [] [] [] [] []]; reflexivity. Qed.

Lemma is_space_lower (c : ascii) : is_space (lower c) = is_space c.
Proof. destruct c as [[] [] [] [] [] [] [] []]; reflexivity. Qed.

Lemma is_special_lower (c : ascii) : is_special (lower c) = is_special c.
Proof. destruct c as [[] [] [] [] [] [] [] []]; reflexivity. Qed.

Lemma is_dot_lower (c : ascii) : Ascii.eqb (lower c) dot = Ascii.eqb c dot.
Proof. destruct c as [[] [] [] [] [] [] [] []]; reflexivity. Qed.

Lemma lstrip_lower (s : string) : lstrip (lower_str s) = lower_str (lstrip s).
Proof.
  induction s as [|c s IH]; [done|]. cbn [lower_str lstrip].
  rewrite is_space_lower. by destruct (is_space c).
Qed.

Lemma rstrip_lower (s : string) : rstrip (lower_str s) = lower_str (rstrip s).
Proof.
  induction s as [|c s IH]; [done|]. cbn [lower_str rstrip]. rewrite IH.
  destruct (rstrip s); cbn [lower_str]; [|done].
  rewrite is_space_lower. by destruct (is_space c).
Qed.

Lemma strip_lower (s : string) : strip (lower_str s) = lower_str (strip s).
Proof. unfold strip. by rewrite lstrip_lower, rstrip_lower. Qed.

Lemma parse_plain_lower (pat : string) :
  parse_plain (lower_str pat) = option_map (map lower_atom) (parse_plain pat).
Proof.
  induction pat as [|c pat IH]; [done|]. cbn [lower_str parse_plain].
  rewrite is_dot_lower, is_special_lower, IH.
  destruct (Ascii.eqb c dot); [by destruct (parse_plain pat)|].
  destruct (is_special c); [done|]. by destruct (parse_plain pat).
Qed.

Lemma match_here_lower (p : list atom) (s : string) :
  match_here (map lower_atom p) s = match_here p s.
Proof.
  revert s. induction p as [|a p IH]; intros s; [done|].
  destruct s as [|ch s]; [done|]. cbn [map match_here]. rewrite IH.
  destruct a as [c|]; [|done]. cbn [lower_atom atom_match].
  by rewrite lower_lower.
Qed.

Lemma search_lower (p : list atom) (s : string) :
  search (map lower_atom p) s = search p s.
Proof.
  induction s as [|ch s IH]; cbn [search]; rewrite match_here_lower; [done|].
  by rewrite IH.
Qed.

Lemma lower_str_empty (s : string) : lower_str s = "" <-> s = "".
Proof. by destruct s. Qed.

(** X21. The case of the query does not matter: two queries made of
    ordinary characters and dots that differ in the case of their letters
    only return the same frame. *)
Theorem apply_filters_ignores_case
    (re_beyond : string -> option (string -> bool)) (data : DataFrame)
    (authorities : list string) (query1 query2 postal_code : string) :
  lower_str query1 = lower_str query2 ->
  parse_plain (strip query1) <> None ->
  apply_filters re_beyond data authorities query1 postal_code
  = apply_filters re_beyond data authorities query2 postal_code.
Proof.
  intros Hlower Hplain.
  assert (Hstrip : lower_str (strip query1) = lower_str (strip query2))
    by (by rewrite <- !strip_lower, Hlower).
  pose proof (parse_plain_lower (strip query1)) as Hp1.
  pose proof (parse_plain_lower (strip query2)) as Hp2.
  rewrite Hstrip in Hp1. rewrite Hp1 in Hp2.
  destruct (parse_plain (strip query1)) as [p1|] eqn:Hq1; [|done].
  destruct (parse_plain (strip query2)) as [p2|] eqn:Hq2; [|done].
  injection Hp2 as Hp.
  rewrite (apply_filters_passes _ _ _ query1 _ (search p1))
    by (intros _; unfold re_search_ignorecase; by rewrite Hq1).
  rewrite (apply_filters_passes _ _ _ query2 _ (search p2))
    by (intros _; unfold re_search_ignorecase; by rewrite Hq2).
  f_equal. apply filter_ext. intros r. unfold passes.
  assert (Hempty : String.eqb query1 "" = String.eqb query2 "").
  { destruct (String.eqb_spec query1 "") as [H1|H1];
      destruct (String.eqb_spec query2 "") as [H2|H2]; try done.
    - apply (proj2 (lower_str_empty _)) in H1. rewrite Hlower in H1.
      by apply (proj1 (lower_str_empty _)) in H1.
    - apply (proj2 (lower_str_empty _)) in H2. rewrite <- Hlower in H2.
      by apply (proj1 (lower_str_empty _)) in H2. }
  rewrite Hempty. destruct (name r) as [s|]; [|done].
  by rewrite <- (search_lower p1), <- (search_lower p2), Hp.
Qed.

Lemma apply_filters_ignores_case_witness :
  apply_filters rejects_the_rest scenario [] " Red L.on" "All"
  = apply_filters rejects_the_rest scenario [] " rEd l.ON" "All".
Proof.
  apply (apply_filters_ignores_case rejects_the_rest scenario []
           " Red L.on" " rEd l.ON" "All").
  - reflexivity.
  - discriminate.
Defined.

(** ** Sorting the same frame again *)

Lemma assign_name_length_name (data : DataFrame) (lengths : list nat) :
  length lengths = length data ->
  map name (assign_name_length data lengths) = map name data.
Proof.
  revert lengths. induction data as [|r data IH]; intros [|n lengths];
    simpl; try done.
  intros [= Hlen]. f_equal. by apply IH.
Qed.

Lemma assign_name_length_again (data : DataFrame) (lengths : list nat) :
  assign_name_length (assign_name_length data lengths) lengths
  = assign_name_length data lengths.
Proof.
  revert lengths. induction data as [|r data IH]; intros [|n lengths];
    simpl; try done.
  f_equal. apply IH.
Qed.

(** X22. [display_sorted_pubs] on the frame it has left behind shows the
    same table, or raises the same exception, and leaves the frame as it
    is: the [name_length] column is written again with the same values. *)
Theorem display_sorted_pubs_again (data : DataFrame) :
  display_sorted_pubs (fst (display_sorted_pubs data))
  = display_sorted_pubs data.
Proof.
  destruct data as [|r0 data0]; [done|].
  set (data := r0 :: data0).
  pose proof (apply_len_spec data) as Hspec.
  assert (Hfirst : display_sorted_pubs data
                   = match apply len (map name data) with
                     | Ok lengths =>
                         (assign_name_length data lengths,
                          Ok (st_dataframe
                                (map shown
                                   (sort_values by_name_length true
                                      (assign_name_length data lengths)))))
                     | Raise e => (data, Raise e)
                     end) by done.
  destruct (apply len (map name data)) as [lengths|e] eqn:Hlen.
  - rewrite Hfirst. cbn [fst]. apply Forall2_length in Hspec.
    destruct lengths as [|n lengths]; [done|].
    unfold display_sorted_pubs at 1.
    rewrite assign_name_length_name by done. rewrite Hlen.
    by rewrite assign_name_length_again.
  - rewrite Hfirst. cbn [fst]. exact Hfirst.
Qed.

(** ** The rows [apply_filters] returns *)

(** X23. With a query that is empty or that the pattern compiler takes,
    [apply_filters] returns a frame, and a row is in it exactly when it is
    a row of the frame given that meets each criterion in use: its region
    is among the authorities, unless none or "All" is selected; its name
    is there and the query is found in it, unless the query is empty; its
    postal code is the one selected, unless that is "All". *)
Theorem apply_filters_rows (re_beyond : string -> option (string -> bool))
    (data : DataFrame) (authorities : list string)
    (name_query postal_code : string) (found : string -> bool) :
  (name_query <> "" ->
   re_search_ignorecase re_beyond (strip name_query) = Some found) ->
  exists out : DataFrame,
    apply_filters re_beyond data authorities name_query postal_code = Ok out
    /\ forall r : Row,
         r ∈ out <->
         r ∈ data
         /\ (authorities = [] \/ "All" ∈ authorities
             \/ exists a : string,
                  local_authority r = Some a /\ a ∈ authorities)
         /\ (name_query = ""
             \/ exists s : string, name r = Some s /\ found s = true)
         /\ (postal_code = "All" \/ postcode r = Some postal_code).
Proof.
  intros Hfound. rewrite (apply_filters_passes _ _ _ _ _ found Hfound).
  eexists. split; [done|]. intros r.
  rewrite (list_elem_of_In (List.filter _ _) r), filter_In,
    <- list_elem_of_In.
  unfold passes.
  rewrite !andb_true_iff, !orb_true_iff, !str_in_elem, !String.eqb_eq.
  assert (Hregion : match local_authority r with
                    | Some a => str_in a authorities
                    | None => false
                    end = true
                    <-> exists a, local_authority r = Some a
                                  /\ a ∈ authorities).
  { destruct (local_authority r) as [a|].
    - rewrite str_in_elem. split; [by exists a|by intros (? & [= <-] & ?)].
    - split; [done|by intros (? & ? & _)]. }
  assert (Hname : match name r with Some s => found s | None => false end
                  = true
                  <-> exists s, name r = Some s /\ found s = true).
  { destruct (name r) as [s|].
    - split; [by exists s|by intros (? & [= <-] & ?)].
    - split; [done|by intros (? & ? & _)]. }
  assert (Hpostcode : match postcode r with
                      | Some p => String.eqb p postal_code
                      | None => false
                      end = true
                      <-> postcode r = Some postal_code).
  { destruct (postcode r) as [p|]; [|done].
    rewrite String.eqb_eq. split; [by intros ->|by intros [= ->]]. }
  rewrite Hregion, Hname, Hpostcode.
  assert (Hempty : empty authorities = true <-> authorities = [])
    by (by destruct authorities).
  rewrite Hempty. tauto.
Qed.

Lemma apply_filters_rows_witness :
  exists out : DataFrame,
    apply_filters rejects_the_rest scenario ["Camden"] "ox" "N1" = Ok out
    /\ forall r : Row,
         r ∈ out <->
         r ∈ scenario
         /\ (["Camden"] = [] \/ "All" ∈ ["Camden"]
             \/ exists a : string,
                  local_authority r = Some a /\ a ∈ ["Camden"])
         /\ ("ox" = ""
             \/ exists s : string,
                  name r = Some s /\ search [Lit "o"; Lit "x"]%char s = true)
         /\ ("N1" = "All" \/ postcode r = Some "N1").
Proof.
  apply (apply_filters_rows rejects_the_rest scenario ["Camden"] "ox" "N1"
           (search [Lit "o"; Lit "x"]%char)).
  intros _. reflexivity.
Defined.

(** ** The home page when nothing is found *)

(** X24. When the filters return no row, the home page ends without an
    exception and shows a message in place of the map, of the bar chart
    and of the table, and between them the top-cities chart, which is of
    all the rows loaded. *)
Theorem main_home_nothing_found (parse_number : string -> option Q)
    (re_beyond : string -> option (string -> bool)) (mean : list Q -> Q)
    (sheet : list SheetRow) (session_state : SessionState)
    (name_query : string) (authorities : list string) (postal_code : string)
    (pub_name : cell) (button : bool) (regions codes : list cell) :
  authority_options (load_data parse_number sheet) = Ok regions ->
  postal_code_options (load_data parse_number sheet) = Ok codes ->
  apply_filters re_beyond (load_data parse_number sheet) authorities
    name_query postal_code = Ok [] ->
  main parse_number re_beyond mean sheet session_state Home name_query
    authorities postal_code pub_name button
  = mkRun session_state
      [ sidebar_title "London Pub Explorer";
        sidebar_radio "Navigation" ["Home"; "Saved Pubs"];
        sidebar_text_input "Search by Pub Name";
        sidebar_multiselect "Filter by Local Authority" regions;
        sidebar_selectbox "Filter by Postal Code" codes;
        st_title "Explore Pubs across London";
        st_image "london.jpg" 700;
        st_markdown welcome;
        showing (st_write "No data available to display on the map.");
        showing (st_write "No chart data available.");
        showing (display_top_cities (load_data parse_number sheet));
        showing (st_write "No data available to display.") ]
      None.
Proof.
  intros Hregions Hcodes Hout. unfold main. cbv zeta.
  by rewrite Hregions, Hcodes, Hout.
Qed.

Lemma main_home_nothing_found_witness :
  main (fun _ => None) rejects_the_rest (fun _ => 0%Q) sheet4
    (mkSession None) Home "swan" [] "All" None false
  = mkRun (mkSession None)
      [ sidebar_title "London Pub Explorer";
        sidebar_radio "Navigation" ["Home"; "Saved Pubs"];
        sidebar_text_input "Search by Pub Name";
        sidebar_multiselect "Filter by Local Authority"
          [Some "All"; Some "Camden"; Some "Soho"];
        sidebar_selectbox "Filter by Postal Code"
          [Some "All"; Some "N1"; Some "W1"];
        st_title "Explore Pubs across London";
        st_image "london.jpg" 700;
        st_markdown welcome;
        showing (st_write "No data available to display on the map.");
        showing (st_write "No chart data available.");
        showing (display_top_cities (load_data (fun _ => None) sheet4));
        showing (st_write "No data available to display.") ]
      None.
Proof.
  apply (main_home_nothing_found (fun _ => None) rejects_the_rest
           (fun _ => 0%Q) sheet4 (mkSession None) "swan" [] "All" None
           false); vm_compute; reflexivity.
Defined.
